(** * The in-memory TTL cache of the WBJEE data server

    A shallow embedding of the caching layer of the Express server: the
    [cache] map with its three functions [getCachedData], [setCachedData]
    and [clearExpiredCache], the [cacheStats] counters, [getCacheStats],
    and the request handlers of [/api/data], [/api/cache-stats] and
    [/api/cache/clear] that drive them.

    Modelling choices.
    - [Date.now()] is an integer number of milliseconds: a [Z].  Each call
      of the clock is an explicit argument, and nothing assumes that the
      clock is monotone unless a lemma says so.
    - The cache is a JS [Map] from strings to [{data, timestamp}] objects:
      a [gmap string CacheItem].  The iteration order of the [Map] only
      shows in [clearExpiredCache], whose deletions commute.
    - The payload is what [fs.readFileSync(_, 'utf8')] returns: a string.
      [getCachedData] returns the payload or [null]: an [option string].
    - The counters are JS numbers that only ever hold integers; they are
      modelled by [N], which is exact below [2^53].
    - The handlers run to completion (there is no [await] in them): each is
      one function from the server state to a response and a new state. *)

From Stdlib Require Import ZArith NArith QArith Qround Qabs Qpower Lia Lqa.
From Stdlib Require Import String Ascii List DecimalString.
From Stdlib Require Import PrimFloat FloatOps SpecFloat Uint63.
From stdpp Require Import gmap strings list fin_maps.

Local Open Scope Z_scope.

(** ** The cache table *)

Record CacheItem := mkItem { data : string; timestamp : Z }.

Abbreviation Cache := (gmap string CacheItem).

(** [const CACHE_TTL = 30 * 60 * 1000; // 30 minutes] *)
Definition CACHE_TTL : Z := 30 * 60 * 1000.

(** [item && Date.now() - item.timestamp < CACHE_TTL]: the read-time
    validity test of an item that was found. *)
Definition fresh (now : Z) (item : CacheItem) : bool :=
  now - timestamp item <? CACHE_TTL.

(** [function getCachedData(key)], with [now] the value of [Date.now()]. *)
Definition getCachedData (key : string) (now : Z) (cache : Cache) : option string :=
  match cache !! key with
  | Some item => if fresh now item then Some (data item) else None
  | None => None
  end.

(** [function setCachedData(key, data)], with [now] the value of
    [Date.now()]. *)
Definition setCachedData (key : string) (d : string) (now : Z) (cache : Cache) : Cache :=
  <[key := mkItem d now]> cache.

(** [now - item.timestamp > CACHE_TTL]: the test of the sweep. *)
Definition stale (now : Z) (item : CacheItem) : bool :=
  CACHE_TTL <? now - timestamp item.

(** The body of the [for (const [key, item] of cache.entries())] loop. *)
Definition sweepStep (now : Z) (cache : Cache) (entry : string * CacheItem) : Cache :=
  if stale now (snd entry) then delete (fst entry) cache else cache.

(** [function clearExpiredCache()]: [now] is read once, then the loop runs
    over the entries of the map, deleting from the map it iterates. *)
Definition clearExpiredCache (now : Z) (cache : Cache) : Cache :=
  foldl (sweepStep now) cache (map_to_list cache).

(** ** The statistics *)

Record CacheStats := mkStats { hits : N; misses : N; totalRequests : N }.

(** [let cacheStats = { hits: 0, misses: 0, totalRequests: 0 }] *)
Definition zeroStats : CacheStats := mkStats 0 0 0.

(** [cacheStats.hits++; cacheStats.totalRequests++;] *)
Definition countHit (st : CacheStats) : CacheStats :=
  mkStats (hits st + 1) (misses st) (totalRequests st + 1).

(** [cacheStats.misses++; cacheStats.totalRequests++;] *)
Definition countMiss (st : CacheStats) : CacheStats :=
  mkStats (hits st) (misses st + 1) (totalRequests st + 1).

(** The two module-level variables of the server. *)
Record Server := mkServer { cache : Cache; cacheStats : CacheStats }.

Definition initial : Server := mkServer ∅ zeroStats.

(** ** JS number arithmetic used by [getCacheStats]

    [hits / totalRequests] and [_ * 100] are IEEE 754 binary64 operations:
    the exact result, rounded to the nearest number with a 53-bit
    significand, ties to the even significand.  A finite double is a
    rational, so the finite values are modelled on [Q], next to the
    infinities and NaN that a division by zero produces.  Not modelled: the
    exponent range (overflow, subnormals) and the sign of zero; the operands
    here are non-negative counters below [2^53], and their quotient times
    [100]. *)
Module Number.
Local Open Scope Q_scope.

Inductive number :=
| Fin (q : Q)
| Inf (negative : bool)
| NaN.

(** The binary exponent of a positive rational: [floor (log2 q)]. *)
Definition ilog2 (q : Q) : Z :=
  let k := (Z.log2 (Qnum q) - Z.log2 (Zpos (Qden q)))%Z in
  if Qle_bool (2 ^ k) q then k else (k - 1)%Z.

(** The integer nearest to [s], the even one of two that are equally near. *)
Definition nearestEven (s : Q) : Z :=
  let m := Qfloor s in
  match Qcompare (s - inject_Z m) (1 # 2) with
  | Lt => m
  | Gt => (m + 1)%Z
  | Eq => if Z.even m then m else (m + 1)%Z
  end.

(** A positive rational rounded to 53 significant bits. *)
Definition roundPos (q : Q) : Q :=
  let e := (ilog2 q - 52)%Z in
  inject_Z (nearestEven (q / 2 ^ e)) * 2 ^ e.

Definition round64 (q : Q) : Q :=
  match Qcompare q 0 with
  | Eq => 0
  | Gt => roundPos q
  | Lt => - roundPos (- q)
  end.

Definition isNegative (q : Q) : bool := negb (Qle_bool 0 q).

(** [x / y]: a zero divisor gives NaN for [0 / 0] and an infinity
    otherwise. *)
Definition div (x y : number) : number :=
  match x, y with
  | Fin a, Fin b =>
      if Qeq_bool b 0
      then (if Qeq_bool a 0 then NaN else Inf (isNegative a))
      else Fin (round64 (a / b))
  | Fin _, Inf _ => Fin 0
  | Inf s, Fin b => Inf (xorb s (isNegative b))
  | _, _ => NaN
  end.

(** [x * y] *)
Definition mul (x y : number) : number :=
  match x, y with
  | Fin a, Fin b => Fin (round64 (a * b))
  | Inf s, Fin b | Fin b, Inf s => if Qeq_bool b 0 then NaN else Inf (xorb s (isNegative b))
  | Inf s, Inf s' => Inf (xorb s s')
  | _, _ => NaN
  end.

(** A counter read as a double. *)
Definition ofN (n : N) : number := Fin (inject_Z (Z.of_N n)).

(** [Number.prototype.toFixed(2)] on a finite number: "let n be an integer
    for which n / 10^2 - x is as close to zero as possible; if there are two
    such n, pick the larger n", then the digits of [n] with a point before
    the last two, a leading (or only) zero kept, and a minus sign for
    [x < 0].  NaN and the infinities print by name.  (From [10^21] on JS
    prints in exponent form; a percentage of counters below [2^53] stays
    under [10^18].) *)
Definition hundredths (x : Q) : Z := Qfloor (x * 100 + (1 # 2)).

Definition digit (d : Z) : ascii := ascii_of_nat (48 + Z.to_nat d).

Definition decimal (n : Z) : string :=
  DecimalString.NilZero.string_of_uint (N.to_uint (Z.to_N n)).

Definition renderHundredths (n : Z) : string :=
  (decimal (n / 100)
   ++ "." ++ String (digit ((n / 10) mod 10)) (String (digit (n mod 10)) ""))%string.

Definition toFixed2 (x : number) : string :=
  match x with
  | Fin q =>
      if isNegative q then ("-" ++ renderHundredths (hundredths (- q)))%string
      else renderHundredths (hundredths q)
  | Inf false => "Infinity"
  | Inf true => "-Infinity"
  | NaN => "NaN"
  end.

End Number.

(** The rounding of [Number] against the machine's binary64 arithmetic, on
    a sample of counter values: [(h / t) * 100] computed by the primitive
    floats and by [Number.div] and [Number.mul] are the same rational. *)
Module NumberCheck.

Definition ofFloat (f : float) : Number.number :=
  match Prim2SF f with
  | S754_zero _ => Number.Fin 0
  | S754_finite s m e =>
      Number.Fin ((if s then -1 else 1) * inject_Z (Zpos m) * 2 ^ e)%Q
  | S754_infinity s => Number.Inf s
  | S754_nan => Number.NaN
  end.

Definition same (x y : Number.number) : bool :=
  match x, y with
  | Number.Fin a, Number.Fin b => Qeq_bool a b
  | Number.Inf s, Number.Inf s' => Bool.eqb s s'
  | Number.NaN, Number.NaN => true
  | _, _ => false
  end.

Definition machine (h t : Z) : Number.number :=
  ofFloat (PrimFloat.mul
             (PrimFloat.div (PrimFloat.of_uint63 (Uint63.of_Z h))
                            (PrimFloat.of_uint63 (Uint63.of_Z t)))
             (PrimFloat.of_uint63 100)).

Definition model (h t : Z) : Number.number :=
  Number.mul (Number.div (Number.ofN (Z.to_N h)) (Number.ofN (Z.to_N t))) (Number.Fin 100).

Definition agree (p : Z * Z) : bool := same (machine (fst p) (snd p)) (model (fst p) (snd p)).

Definition smallCounters : list (Z * Z) :=
  flat_map (fun t => List.map (fun h => (Z.of_nat h, Z.of_nat t)) (seq 0 (S t))) (seq 0 40).

Definition largeCounters : list (Z * Z) :=
  [ (1, 800); (1, 16000); (3, 7000000); (123456789, 987654321);
    (1, 9007199254740991); (4503599627370497, 9007199254740991);
    (9007199254740990, 9007199254740991); (9007199254740991, 9007199254740991);
    (2, 3); (5, 0); (0, 0); (0, 12) ].

Example model_agrees_with_machine :
  forallb agree smallCounters = true ∧ forallb agree largeCounters = true.
Proof. split; vm_compute; reflexivity. Qed.

End NumberCheck.

(** ** [getCacheStats]

    The object [getCacheStats] returns: the spread [...cacheStats], the
    derived [hitRate] and [cacheSize].  [memoryUsage] is a reading of the
    process, independent of the cache, and is left out. *)
Record Report := mkReport { spread : CacheStats; hitRate : string; cacheSize : nat }.

(** [((cacheStats.hits / cacheStats.totalRequests) * 100).toFixed(2) + '%'] *)
Definition percentage (st : CacheStats) : string :=
  (Number.toFixed2
     (Number.mul (Number.div (Number.ofN (hits st)) (Number.ofN (totalRequests st)))
                 (Number.Fin 100))
   ++ "%")%string.

Definition getCacheStats (s : Server) : Report :=
  {| spread := cacheStats s;
     hitRate := if (0 <? totalRequests (cacheStats s))%N
                then percentage (cacheStats s) else "0%"%string;
     cacheSize := size (cache s) |}.

(** ** The request handlers *)

(** [const cacheKey = 'wbjee_full_data';] *)
Definition cacheKey : string := "wbjee_full_data".

Definition allowedOrigins : list string :=
  [ "http://localhost:3000";
    "https://wbjee-college-predictor.vercel.app";
    "https://wbjee-college-predictor.vercel.app/" ]%string.

(** [referer && !allowedOrigins.some(allowed => referer.startsWith(allowed))],
    where [req.get('Referer')] is a string or [undefined]; the empty string
    is falsy. *)
Definition blocked (referer : option string) : bool :=
  match referer with
  | Some r =>
      negb (String.eqb r "")
      && negb (existsb (fun allowed => String.prefix allowed r) allowedOrigins)
  | None => false
  end.

(** [if (data)] on what [getCachedData] returned: [null] and the empty
    string are falsy, every other string is truthy.  The payload that the
    test accepts, if any. *)
Definition truthy (d : option string) : option string :=
  match d with
  | Some text => if String.eqb text "" then None else Some text
  | None => None
  end.

(** The cache check of the [/api/data] handler,
[[
    let data = getCachedData(cacheKey);
    if (data) { cacheStats.hits++; cacheStats.totalRequests++; }
    else      { cacheStats.misses++; cacheStats.totalRequests++; ... }
]]
    with the key as a parameter: the counted lookup.  It returns what
    [getCachedData] returned. *)
Definition checkCache (key : string) (now : Z) (s : Server) : option string * Server :=
  let d := getCachedData key now (cache s) in
  (d, mkServer (cache s)
        (match truthy d with
         | Some _ => countHit (cacheStats s)
         | None => countMiss (cacheStats s)
         end)).

(** [setCachedData] on the server state. *)
Definition store (key : string) (d : string) (now : Z) (s : Server) : Server :=
  mkServer (setCachedData key d now (cache s)) (cacheStats s).

(** The timer callback [setInterval(clearExpiredCache, 10 * 60 * 1000)]. *)
Definition sweep (now : Z) (s : Server) : Server :=
  mkServer (clearExpiredCache now (cache s)) (cacheStats s).

(** What [fs.readFileSync(dataPath, 'utf8')] does: return the text or throw. *)
Inductive FileRead := Contents (text : string) | ReadError.

Inductive Response :=
| Forbidden                 (* res.status(403).json(...) *)
| Sent (body : string)      (* res.send(data) *)
| ServerError.              (* res.status(500).json(...) in the catch block *)

(** [app.get('/api/data', ...)]: [now] is the clock read by
    [getCachedData], [now'] the clock read by [setCachedData], [file] the
    outcome of reading the data file. *)
Definition apiData (referer : option string) (now : Z) (file : FileRead) (now' : Z)
    (s : Server) : Response * Server :=
  if blocked referer then (Forbidden, s)
  else
    let (d, s1) := checkCache cacheKey now s in
    match truthy d with
    | Some text => (Sent text, s1)
    | None =>
        match file with
        | Contents text => (Sent text, store cacheKey text now' s1)
        | ReadError => (ServerError, s1)
        end
    end.

(** [cache.clear();] *)
Definition clearTable (s : Server) : Server := mkServer ∅ (cacheStats s).

(** [cacheStats = { hits: 0, misses: 0, totalRequests: 0 };] *)
Definition resetStats (s : Server) : Server := mkServer (cache s) zeroStats.

(** [app.post('/api/cache/clear', ...)]: the response's [clearedEntries]
    and the new state.  The two statements run in the one callback. *)
Definition apiCacheClear (s : Server) : nat * Server :=
  let previousSize := size (cache s) in
  (previousSize, resetStats (clearTable s)).

(** ** Runs of the server

    The callbacks that touch the cache, each run to completion. *)
Inductive Op :=
| OpGet (key : string) (now : Z)
| OpSet (key : string) (d : string) (now : Z)
| OpSweep (now : Z)
| OpClear
| OpStats
| OpRequest (referer : option string) (now : Z) (file : FileRead) (now' : Z).

Definition step (s : Server) (op : Op) : Server :=
  match op with
  | OpGet key now => snd (checkCache key now s)
  | OpSet key d now => store key d now s
  | OpSweep now => sweep now s
  | OpClear => snd (apiCacheClear s)
  | OpStats => s
  | OpRequest referer now file now' => snd (apiData referer now file now' s)
  end.

Definition run (ops : list Op) (s : Server) : Server := foldl step s ops.

(** The states a run can be observed in: the one each callback leaves
    behind, in order.  What a callback passes through on its way is not in
    the list. *)
Fixpoint observed (ops : list Op) (s : Server) : list Server :=
  match ops with
  | [] => []
  | op :: ops => step s op :: observed ops (step s op)
  end.

(** The counters agree. *)
Definition consistent (st : CacheStats) : Prop :=
  (hits st + misses st = totalRequests st)%N.

(** * Properties *)

(** ** The sweep *)
Section Sweep.
Variable now : Z.

Definition sweeps (key : string) (entry : string * CacheItem) : bool :=
  bool_decide (fst entry = key) && stale now (snd entry).

Lemma sweepStep_lookup (c : Cache) entry key :
  sweepStep now c entry !! key = if sweeps key entry then None else c !! key.
Proof.
  unfold sweepStep, sweeps. destruct entry as [k item]; simpl.
  destruct (stale now item); rewrite ?andb_true_r, ?andb_false_r; [|done].
  case_bool_decide; subst.
  - apply lookup_delete_eq.
  - by apply lookup_delete_ne.
Qed.

Lemma foldl_sweepStep_lookup l (c : Cache) key :
  foldl (sweepStep now) c l !! key =
  if existsb (sweeps key) l then None else c !! key.
Proof.
  revert c. induction l as [|entry l IH]; intros c; simpl; [done|].
  rewrite IH, sweepStep_lookup.
  destruct (sweeps key entry); simpl; [|done].
  by destruct (existsb (sweeps key) l).
Qed.

Lemma clearExpiredCache_lookup (c : Cache) key :
  clearExpiredCache now c !! key =
  match c !! key with
  | Some item => if stale now item then None else Some item
  | None => None
  end.
Proof.
  unfold clearExpiredCache. rewrite foldl_sweepStep_lookup.
  destruct (existsb (sweeps key) (map_to_list c)) eqn:Hex.
  - apply existsb_exists in Hex as [[k item] [Hin Hsw]].
    apply list_elem_of_In, elem_of_map_to_list in Hin.
    unfold sweeps in Hsw. apply andb_true_iff in Hsw as [Hk Hst].
    apply bool_decide_eq_true in Hk. simpl in *. subst k.
    by rewrite Hin, Hst.
  - destruct (c !! key) as [item|] eqn:Hc; [|done].
    destruct (stale now item) eqn:Hst; [|done].
    exfalso. apply not_true_iff_false in Hex. apply Hex.
    apply existsb_exists. exists (key, item). split.
    + by apply list_elem_of_In, elem_of_map_to_list.
    + unfold sweeps. simpl. rewrite Hst. by rewrite bool_decide_eq_true_2.
Qed.

(** The loop computes the filter of the map by the negated test. *)
Lemma clearExpiredCache_filter (c : Cache) :
  clearExpiredCache now c = filter (fun e => stale now (snd e) = false) c.
Proof.
  apply map_eq. intros key. rewrite clearExpiredCache_lookup.
  destruct (c !! key) as [item|] eqn:Hc.
  - destruct (stale now item) eqn:Hst.
    + symmetry. apply map_lookup_filter_None. right. intros x Hx.
      simpl. congruence.
    + symmetry. by apply map_lookup_filter_Some.
  - symmetry. apply map_lookup_filter_None. by left.
Qed.

End Sweep.

(** C4. At every state and time, the sweep keeps exactly the entries whose
    age [now - timestamp] is at most [CACHE_TTL], each with its data and
    timestamp as they were, removes every entry whose age exceeds
    [CACHE_TTL], and leaves the counters alone. *)
Theorem sweep_removes_exactly_the_stale (now : Z) (s : Server) :
  (∀ key item,
      cache (sweep now s) !! key = Some item
      ↔ cache s !! key = Some item ∧ now - timestamp item <= CACHE_TTL)
  ∧ (∀ key item,
      cache s !! key = Some item → CACHE_TTL < now - timestamp item →
      cache (sweep now s) !! key = None)
  ∧ cacheStats (sweep now s) = cacheStats s.
Proof.
  split; [|split]; [| |done].
  - intros key item. simpl. rewrite clearExpiredCache_lookup.
    unfold stale. destruct (cache s !! key) as [item'|]; [|by split; [|intros []]].
    destruct (Z.ltb_spec CACHE_TTL (now - timestamp item')) as [Hlt|Hge].
    + split; [done|]. intros [Heq Hage]. injection Heq as <-. lia.
    + split; [intros Heq; injection Heq as <-; split; [done|lia] | by intros [-> _]].
  - intros key item Hc Hage. simpl. rewrite clearExpiredCache_lookup, Hc.
    unfold stale. by destruct (Z.ltb_spec CACHE_TTL (now - timestamp item)); [|lia].
Qed.

Lemma sweep_witness :
  let s := store "new" "b" 1800000 (store "old" "a" 0 initial) in
  cache (sweep 1800001 s) !! "old" = None
  ∧ cache (sweep 1800001 s) !! "new" = Some (mkItem "b" 1800000)
  ∧ cacheStats (sweep 1800001 s) = cacheStats s.
Proof.
  intros s. destruct (sweep_removes_exactly_the_stale 1800001 s) as (Hkeep & Hdrop & Hstats).
  split_and!.
  - apply (Hdrop "old"%string (mkItem "a" 0)); reflexivity.
  - apply Hkeep. split; [reflexivity | discriminate].
  - exact Hstats.
Defined.

(** ** Reads *)

Lemma getCachedData_Some key now (c : Cache) d :
  getCachedData key now c = Some d
  ↔ ∃ item, c !! key = Some item ∧ now - timestamp item < CACHE_TTL ∧ data item = d.
Proof.
  unfold getCachedData, fresh.
  destruct (c !! key) as [item|]; [|by split; [|intros (? & ? & _)]].
  destruct (Z.ltb_spec (now - timestamp item) CACHE_TTL) as [Hlt|Hge].
  - split.
    + intros Heq. injection Heq as <-. by exists item.
    + intros (item' & Heq & _ & <-). by injection Heq as <-.
  - split; [done|]. intros (item' & Heq & Hage & _). injection Heq as <-. lia.
Qed.

Lemma getCachedData_None key now (c : Cache) :
  getCachedData key now c = None
  ↔ c !! key = None ∨ ∃ item, c !! key = Some item ∧ CACHE_TTL <= now - timestamp item.
Proof.
  unfold getCachedData, fresh. destruct (c !! key) as [item|]; [|by split; [left|]].
  destruct (Z.ltb_spec (now - timestamp item) CACHE_TTL) as [Hlt|Hge].
  - split; [done|]. intros [Hnone | (item' & Heq & Hage)]; [done|].
    injection Heq as <-. lia.
  - split; [|done]. intros _. right. by exists item.
Qed.

Lemma truthy_Some d text : truthy d = Some text ↔ d = Some text ∧ text ≠ ""%string.
Proof.
  unfold truthy. destruct d as [t|]; [|by split; [|intros []]].
  destruct (String.eqb_spec t "") as [Ht|Ht].
  - split; [done|]. intros [Heq Hne]. injection Heq as <-. done.
  - split.
    + intros Heq. injection Heq as <-. done.
    + by intros [-> _].
Qed.

Lemma truthy_None d : truthy d = None ↔ d = None ∨ d = Some ""%string.
Proof.
  unfold truthy. destruct d as [t|]; [|by split; [left|]].
  destruct (String.eqb_spec t "") as [->|Ht].
  - split; [by right | done].
  - split; [done|]. intros [Hnone | Heq]; [done|]. by injection Heq as ->.
Qed.

Lemma checkCache_cache key now s : cache (snd (checkCache key now s)) = cache s.
Proof. done. Qed.

Lemma checkCache_fst key now s : fst (checkCache key now s) = getCachedData key now (cache s).
Proof. done. Qed.

(** A fresh entry with a non-empty payload is a hit that returns the payload. *)
Lemma checkCache_hit key now s item :
  cache s !! key = Some item → now - timestamp item < CACHE_TTL → data item ≠ ""%string →
  checkCache key now s = (Some (data item), mkServer (cache s) (countHit (cacheStats s))).
Proof.
  intros Hc Hage Hd. unfold checkCache.
  assert (getCachedData key now (cache s) = Some (data item)) as ->
    by (apply getCachedData_Some; eauto).
  assert (truthy (Some (data item)) = Some (data item)) as ->
    by (by apply truthy_Some).
  done.
Qed.

(** A key with no entry, or with an entry of age [CACHE_TTL] or more, is a
    miss that returns [null], swept or not. *)
Lemma checkCache_miss key now s :
  (cache s !! key = None
   ∨ ∃ item, cache s !! key = Some item ∧ CACHE_TTL <= now - timestamp item) →
  checkCache key now s = (None, mkServer (cache s) (countMiss (cacheStats s))).
Proof.
  intros H. apply getCachedData_None in H. unfold checkCache. by rewrite H.
Qed.

(** The counted lookup is a hit exactly for a fresh entry with a non-empty
    payload. *)
Lemma checkCache_hit_iff key now s :
  cacheStats (snd (checkCache key now s)) = countHit (cacheStats s)
  ↔ ∃ item, cache s !! key = Some item
            ∧ now - timestamp item < CACHE_TTL ∧ data item ≠ ""%string.
Proof.
  split.
  - unfold checkCache; simpl.
    destruct (truthy (getCachedData key now (cache s))) as [text|] eqn:Ht.
    + intros _. apply truthy_Some in Ht as [Hd Hne].
      apply getCachedData_Some in Hd as (item & Hc & Hage & <-). by exists item.
    + unfold countMiss, countHit. intros Heq. injection Heq as Hh Hm. lia.
  - intros (item & Hc & Hage & Hne). by rewrite (checkCache_hit key now s item).
Qed.

(** ** The counters *)

Lemma consistent_countHit st : consistent st → consistent (countHit st).
Proof. unfold consistent, countHit; simpl; lia. Qed.

Lemma consistent_countMiss st : consistent st → consistent (countMiss st).
Proof. unfold consistent, countMiss; simpl; lia. Qed.

Lemma checkCache_stats key now s :
  cacheStats (snd (checkCache key now s)) = countHit (cacheStats s)
  ∨ cacheStats (snd (checkCache key now s)) = countMiss (cacheStats s).
Proof. unfold checkCache; simpl. destruct (truthy _); auto. Qed.

Lemma apiData_stats referer now file now' s :
  cacheStats (snd (apiData referer now file now' s)) = cacheStats s
  ∨ cacheStats (snd (apiData referer now file now' s)) = countHit (cacheStats s)
  ∨ cacheStats (snd (apiData referer now file now' s)) = countMiss (cacheStats s).
Proof.
  unfold apiData. destruct (blocked referer); [auto|].
  unfold checkCache. destruct (truthy _); simpl; [auto|].
  destruct file; simpl; auto.
Qed.

Lemma consistent_step s op : consistent (cacheStats s) → consistent (cacheStats (step s op)).
Proof.
  intros H. destruct op as [key now|key d now|now| | |referer now file now']; simpl; try done.
  - destruct (truthy _); auto using consistent_countHit, consistent_countMiss.
  - destruct (apiData_stats referer now file now' s) as [-> | [-> | ->]];
      auto using consistent_countHit, consistent_countMiss.
Qed.

Lemma consistent_run ops s : consistent (cacheStats s) → consistent (cacheStats (run ops s)).
Proof.
  revert s. induction ops as [|op ops IH]; intros s H; [done|].
  apply IH, consistent_step, H.
Qed.

(** C1. After every run of completed operations from the initial state
    (lookups, stores, sweeps, clears, whole requests), and after every run
    that continues from a clear, [hits + misses = totalRequests]; each
    counted lookup adds one to [totalRequests] and one to exactly one of
    [hits] and [misses]; a clear sets the three counters to zero. *)
Theorem counters_agree_after_every_run :
  (∀ ops, consistent (cacheStats (run ops initial)))
  ∧ (∀ ops ops' s, consistent (cacheStats (run ops' (step (run ops s) OpClear))))
  ∧ (∀ key now s,
       let st := cacheStats s in
       let st' := cacheStats (step s (OpGet key now)) in
       (totalRequests st' = totalRequests st + 1)%N
       ∧ ((hits st' = hits st + 1 ∧ misses st' = misses st)%N
          ∨ (hits st' = hits st ∧ misses st' = misses st + 1)%N))
  ∧ (∀ s, cacheStats (step s OpClear) = mkStats 0 0 0).
Proof.
  split; [|split; [|split]].
  - intros ops. by apply consistent_run.
  - intros ops ops' s. by apply consistent_run.
  - intros key now s. simpl. destruct (truthy _); simpl; auto.
  - done.
Qed.

(** ** Clearing *)

Lemma observed_lookup ops s i :
  observed ops s !! i = (λ op, step (run (take i ops) s) op) <$> ops !! i.
Proof.
  revert s i. induction ops as [|op ops IH]; intros s [|i]; simpl; [done..|].
  apply IH.
Qed.

(** C3. At every state the clear handler answers with the number of entries
    the table held, and leaves a table with no entry and the three counters
    at zero.  It does so in one step: in every run, the state observed after
    a clear is that state, whatever came before; the table emptied with the
    counters not yet reset is passed through inside the callback and is
    never one of the observed states.  A report or a lookup that runs next
    sees zero counters, size zero and no entry. *)
Theorem clear_empties_resets_and_counts (s : Server) :
  let (cleared, s') := apiCacheClear s in
  cleared = length (map_to_list (cache s))
  ∧ (∀ key, cache s' !! key = None)
  ∧ cacheStats s' = mkStats 0 0 0
  ∧ (∀ ops i, ops !! i = Some OpClear → observed ops s !! i = Some s')
  ∧ getCacheStats s' = mkReport (mkStats 0 0 0) "0%" 0
  ∧ (∀ key now, fst (checkCache key now s') = None).
Proof.
  simpl. split_and!; [by rewrite length_map_to_list|done|done| |done|done].
  intros ops i Hop. by rewrite observed_lookup, Hop.
Qed.

Lemma clear_witness :
  let s := mkServer (setCachedData "k2" "b" 2 (setCachedData "k1" "a" 1 ∅)) (mkStats 3 4 7) in
  let ops := [OpGet "k1" 5; OpClear; OpStats] in
  fst (apiCacheClear s) = 2%nat
  ∧ observed ops s !! 1%nat = Some (mkServer ∅ (mkStats 0 0 0)).
Proof.
  intros s ops. pose proof (clear_empties_resets_and_counts s) as H.
  destruct (apiCacheClear s) as [cleared s'] eqn:Hclear.
  destruct H as (Hcount & _ & _ & Hobs & _).
  split.
  - simpl. rewrite Hcount. reflexivity.
  - rewrite (Hobs ops 1%nat); [|reflexivity].
    injection Hclear as _ <-. reflexivity.
Defined.

(** ** Lookups leave the table alone *)

Definition isRead (op : Op) : bool :=
  match op with
  | OpGet _ _ | OpStats => true
  | _ => false
  end.

Lemma run_reads_cache ops s : forallb isRead ops = true → cache (run ops s) = cache s.
Proof.
  revert s. induction ops as [|op ops IH]; intros s H; [done|].
  simpl in H. apply andb_true_iff in H as [Hop Hops]. simpl.
  rewrite IH by done. by destruct op.
Qed.

(** C10. A counted lookup never changes the table.  In particular the
    lookup of an expired entry does not evict it: after any number of
    lookups and reports the entry is still in the table, still counted in
    the reported [cacheSize], and still a miss. *)
Theorem lookup_never_modifies_the_table :
  (∀ key now s, cache (snd (checkCache key now s)) = cache s)
  ∧ (∀ ops s, forallb isRead ops = true →
       cache (run ops s) = cache s
       ∧ cacheSize (getCacheStats (run ops s)) = cacheSize (getCacheStats s))
  ∧ (∀ key item now s,
       cache s !! key = Some item → CACHE_TTL <= now - timestamp item →
       let (d, s') := checkCache key now s in
       d = None
       ∧ cache s' !! key = Some item
       ∧ cacheSize (getCacheStats s') = S (size (delete key (cache s)))).
Proof.
  split; [done|split].
  - intros ops s H. unfold getCacheStats; simpl. by rewrite run_reads_cache.
  - intros key item now s Hc Hage. rewrite checkCache_miss by eauto.
    split_and!; [done..|]. simpl.
    rewrite <- (insert_id (cache s) key item) at 1 by done.
    rewrite <- insert_delete_eq. apply map_size_insert_None, lookup_delete_eq.
Qed.

Lemma lookup_witness :
  let s := store "k" "v" 0 initial in
  let ops := [OpGet "k" 1800000; OpStats; OpGet "k" 1900000] in
  cache (run ops s) = cache s
  ∧ cacheSize (getCacheStats (run ops s)) = cacheSize (getCacheStats s)
  ∧ cache (snd (checkCache "k" 1800000 s)) !! "k" = Some (mkItem "v" 0).
Proof.
  intros s ops.
  destruct lookup_never_modifies_the_table as (_ & Hrun & Hexpired).
  destruct (Hrun ops s) as [Hcache Hsize]; [reflexivity|].
  split_and!; [exact Hcache | exact Hsize |].
  pose proof (Hexpired "k"%string (mkItem "v" 0) 1800000 s) as H.
  destruct (checkCache "k" 1800000 s) as [d s'] eqn:Hcheck.
  apply H; [reflexivity | discriminate].
Defined.

(** ** The boundary [now - timestamp = CACHE_TTL] *)

(** C9. An entry whose age is exactly [CACHE_TTL] is not served: the
    lookup returns [null] and counts a miss ([age < CACHE_TTL] fails).  The
    sweep run at that instant keeps it ([age > CACHE_TTL] fails too).  So
    the table after a completed sweep holds an entry that this lookup and
    every later one (the clock not running backwards) treat as absent. *)
Theorem boundary_entry_misses_but_survives_sweep
    (key : string) (item : CacheItem) (now : Z) (s : Server) :
  cache s !! key = Some item →
  now - timestamp item = CACHE_TTL →
  checkCache key now s = (None, mkServer (cache s) (countMiss (cacheStats s)))
  ∧ cache (sweep now s) !! key = Some item
  ∧ ∀ later, now <= later →
      checkCache key later (sweep now s)
      = (None, mkServer (cache (sweep now s)) (countMiss (cacheStats s))).
Proof.
  intros Hc Hage.
  assert (cache (sweep now s) !! key = Some item) as Hkept.
  { unfold sweep, cache at 1. rewrite clearExpiredCache_lookup, Hc.
    unfold stale. by destruct (Z.ltb_spec CACHE_TTL (now - timestamp item)); [lia|]. }
  split; [|split; [done|]].
  - apply checkCache_miss. right. exists item. split; [done|lia].
  - intros later Hlater. rewrite checkCache_miss; [done|].
    right. exists item. split; [done|lia].
Qed.

Lemma boundary_entry_witness :
  let s := store "k" "v" 0 initial in
  checkCache "k" CACHE_TTL s = (None, mkServer (cache s) (countMiss (cacheStats s)))
  ∧ cache (sweep CACHE_TTL s) !! "k" = Some (mkItem "v" 0)
  ∧ ∀ later, CACHE_TTL <= later →
      checkCache "k" later (sweep CACHE_TTL s)
      = (None, mkServer (cache (sweep CACHE_TTL s)) (countMiss (cacheStats s))).
Proof.
  apply (boundary_entry_misses_but_survives_sweep "k" (mkItem "v" 0) CACHE_TTL
           (store "k" "v" 0 initial)).
  - reflexivity.
  - reflexivity.
Defined.

(** ** Stores *)

Lemma store_lookup key d now s :
  cache (store key d now s) !! key = Some (mkItem d now).
Proof. apply lookup_insert_eq. Qed.

Lemma store_lookup_ne key key' d now s :
  key ≠ key' → cache (store key d now s) !! key' = cache s !! key'.
Proof. intros. by apply lookup_insert_ne. Qed.

Lemma store_stats key d now s : cacheStats (store key d now s) = cacheStats s.
Proof. done. Qed.

(** The write replaces whatever was there, expired or not, and a second
    write wins over the first. *)
Lemma store_store key d d' now now' s :
  cache (store key d' now' (store key d now s)) = cache (store key d' now' s).
Proof. apply insert_insert_eq. Qed.

(** A non-empty payload that was stored is served as a hit while its age is
    below [CACHE_TTL]. *)
Lemma store_then_checkCache key d now now' s :
  d ≠ ""%string → now' - now < CACHE_TTL →
  checkCache key now' (store key d now s)
  = (Some d, mkServer (cache (store key d now s)) (countHit (cacheStats s))).
Proof.
  intros Hd Hage.
  by rewrite (checkCache_hit key now' _ (mkItem d now)) by (done || apply store_lookup).
Qed.

(** C2, at the input where the code leaves the claim.  The data file is
    empty.  The first request misses and caches the empty payload.  A
    lookup one millisecond later finds the entry, unexpired, and
    [getCachedData] returns its payload; but [if (data)] takes the empty
    string for a miss: [misses] goes from 1 to 2 and [hits] stays 0.  (For
    every other payload [checkCache_hit] and [checkCache_miss] are the
    claim.) *)
Theorem empty_payload_lookup_is_counted_a_miss :
  let (response, s1) := apiData None 0 (Contents "") 0 initial in
  let (d, s2) := checkCache cacheKey 1 s1 in
  response = Sent ""
  ∧ cache s1 !! cacheKey = Some (mkItem "" 0)
  ∧ fresh 1 (mkItem "" 0) = true
  ∧ d = Some ""%string
  ∧ cacheStats s1 = mkStats 0 1 1
  ∧ cacheStats s2 = mkStats 0 2 2.
Proof. vm_compute. by split_and!. Qed.


(** ** A failed load *)

(** The operations that may call [setCachedData] under [key]: a store under
    that key, and a request that can read the data file (it stores under
    [cacheKey] whenever it misses). *)
Definition mayStore (key : string) (op : Op) : bool :=
  match op with
  | OpSet k _ _ => bool_decide (k = key)
  | OpRequest _ _ (Contents _) _ => bool_decide (cacheKey = key)
  | _ => false
  end.

(** What makes the lookups of [key] miss from time [now] on: no entry, an
    entry that is already [CACHE_TTL] old, or an entry with an empty
    payload. *)
Definition missing (key : string) (now : Z) (c : Cache) : Prop :=
  match c !! key with
  | Some item => CACHE_TTL <= now - timestamp item ∨ data item = ""%string
  | None => True
  end.

Lemma truthy_getCachedData_None key now (c : Cache) :
  truthy (getCachedData key now c) = None ↔ missing key now c.
Proof.
  unfold missing, getCachedData, fresh. destruct (c !! key) as [item|]; [|done].
  destruct (Z.ltb_spec (now - timestamp item) CACHE_TTL) as [Hlt|Hge]; simpl.
  - destruct (String.eqb_spec (data item) "") as [Hd|Hd].
    + split; [by right | done].
    + split; [done | intros [Hage|Hempty]; [lia | done]].
  - split; [by left | done].
Qed.

Lemma missing_later key now later (c : Cache) :
  now <= later → missing key now c → missing key later c.
Proof.
  unfold missing. destruct (c !! key) as [item|]; [|done].
  intros Hle [Hage | Hdata]; [left; lia | by right].
Qed.

Lemma apiData_cache_ne referer now file now' s key :
  mayStore key (OpRequest referer now file now') = false →
  cache (snd (apiData referer now file now' s)) !! key = cache s !! key.
Proof.
  unfold apiData. destruct (blocked referer); [done|].
  unfold checkCache. destruct (truthy _); [done|].
  destruct file as [text|]; [|done]. simpl. intros Hne.
  apply bool_decide_eq_false in Hne. by apply lookup_insert_ne.
Qed.

Lemma missing_step key now s op :
  mayStore key op = false → missing key now (cache s) → missing key now (cache (step s op)).
Proof.
  intros Hop Hmiss.
  unfold missing in *.
  destruct op as [k t|k d t|t| | |referer t file t']; unfold step.
  - done.
  - apply bool_decide_eq_false in Hop. by rewrite store_lookup_ne.
  - unfold sweep, cache at 1. rewrite clearExpiredCache_lookup.
    destruct (cache s !! key) as [item|]; [|done]. by destruct (stale t item).
  - done.
  - done.
  - by rewrite apiData_cache_ne.
Qed.

Lemma missing_run key now ops s :
  existsb (mayStore key) ops = false →
  missing key now (cache s) → missing key now (cache (run ops s)).
Proof.
  revert s. induction ops as [|op ops IH]; intros s Hops Hmiss; [done|].
  simpl in Hops. apply orb_false_iff in Hops as [Hop Hops].
  apply IH; [done|]. by apply missing_step.
Qed.

Lemma apiData_ServerError referer now file now' s :
  fst (apiData referer now file now' s) = ServerError → file = ReadError.
Proof.
  unfold apiData. destruct (blocked referer); [done|].
  unfold checkCache. destruct (truthy _); [done|]. by destruct file.
Qed.

(** C8. A request that misses and whose file read throws answers 500 and
    leaves the table as it was; the two counters of the miss are counted.
    From then on, as long as no operation stores under the key and the
    clock does not run backwards, every lookup of the key is a miss.  The
    only error a request can answer with comes from the file read. *)
Theorem failed_load_stores_nothing
    (referer : option string) (now now' : Z) (s : Server) (ops : list Op) (later : Z) :
  blocked referer = false →
  truthy (getCachedData cacheKey now (cache s)) = None →
  existsb (mayStore cacheKey) ops = false →
  now <= later →
  let (response, s1) := apiData referer now ReadError now' s in
  response = ServerError
  ∧ cache s1 = cache s
  ∧ cacheStats s1 = countMiss (cacheStats s)
  ∧ truthy (fst (checkCache cacheKey later (run ops s1))) = None
  ∧ cacheStats (snd (checkCache cacheKey later (run ops s1)))
    = countMiss (cacheStats (run ops s1))
  ∧ (∀ referer0 t file t' s0,
       fst (apiData referer0 t file t' s0) = ServerError → file = ReadError).
Proof.
  intros Hblocked Hmiss Hops Hlater.
  unfold apiData. rewrite Hblocked. unfold checkCache at 1. rewrite Hmiss.
  set (s1 := mkServer (cache s) (countMiss (cacheStats s))).
  assert (truthy (getCachedData cacheKey later (cache (run ops s1))) = None) as Hlate.
  { apply truthy_getCachedData_None, missing_run; [done|].
    apply (missing_later _ now); [done|]. by apply truthy_getCachedData_None. }
  split_and!; try done.
  - unfold checkCache; simpl. by rewrite Hlate.
  - apply apiData_ServerError.
Qed.

Lemma failed_load_witness :
  let ops := [OpGet cacheKey 5; OpSweep 7; OpRequest None 8 ReadError 8; OpStats] in
  let (response, s1) := apiData None 3 ReadError 3 initial in
  response = ServerError
  ∧ cache s1 = cache initial
  ∧ cacheStats s1 = countMiss (cacheStats initial)
  ∧ truthy (fst (checkCache cacheKey 9 (run ops s1))) = None
  ∧ cacheStats (snd (checkCache cacheKey 9 (run ops s1)))
    = countMiss (cacheStats (run ops s1))
  ∧ (∀ referer0 t file t' s0,
       fst (apiData referer0 t file t' s0) = ServerError → file = ReadError).
Proof.
  apply (failed_load_stores_nothing None 3 3 initial
           [OpGet cacheKey 5; OpSweep 7; OpRequest None 8 ReadError 8; OpStats] 9).
  - reflexivity.
  - reflexivity.
  - reflexivity.
  - lia.
Defined.

(** ** Accuracy of the reported hit rate *)
Module NumberFacts.
Import Number.
Local Open Scope Q_scope.

Lemma two_pow_pos (e : Z) : 0 < 2 ^ e.
Proof. by apply Qpower_0_lt. Qed.

Lemma two_pow_succ (e : Z) : 2 ^ (e + 1) == 2 * 2 ^ e.
Proof. rewrite Qpower_plus by done. rewrite Qpower_1_r. ring. Qed.

Lemma two_pow_inject (n : Z) : (0 <= n)%Z → inject_Z (2 ^ n) == 2 ^ n.
Proof. intros. by rewrite Zpower_Qpower. Qed.

(** A positive integer between two consecutive powers of two, in [Q]. *)
Lemma log2_bounds (a : Z) :
  (0 < a)%Z → 2 ^ Z.log2 a <= inject_Z a ∧ inject_Z a < 2 * 2 ^ Z.log2 a.
Proof.
  intros Ha. destruct (Z.log2_spec a Ha) as [Hlo Hhi].
  pose proof (Z.log2_nonneg a) as Hnn.
  rewrite <- two_pow_succ, <- !two_pow_inject by lia.
  rewrite <- Zle_Qle, <- Zlt_Qlt. split; [done|]. by rewrite Z.add_1_r.
Qed.

Lemma ilog2_spec (q : Q) : 0 < q → 2 ^ ilog2 q <= q ∧ q < 2 * 2 ^ ilog2 q.
Proof.
  intros Hq. unfold ilog2.
  set (a := Qnum q). set (b := Zpos (Qden q)).
  assert (0 < a)%Z as Ha by (destruct q as [n d]; unfold Qlt in Hq; simpl in *; lia).
  assert (q * inject_Z b == inject_Z a) as Hab.
  { destruct q as [n d]. unfold a, b, Qeq, inject_Z. simpl. lia. }
  destruct (log2_bounds a Ha) as [Hal Hah].
  destruct (log2_bounds b) as [Hbl Hbh]; [done|].
  set (la := Z.log2 a) in *. set (lb := Z.log2 b) in *.
  assert (2 ^ la == 2 ^ (la - lb) * 2 ^ lb) as Hk.
  { rewrite <- Qpower_plus by done. by replace (la - lb + lb)%Z with la by lia. }
  assert (2 ^ (la - lb) == 2 * 2 ^ (la - lb - 1)) as Hk'.
  { rewrite <- two_pow_succ. by replace (la - lb - 1 + 1)%Z with (la - lb)%Z by lia. }
  pose proof (two_pow_pos lb). pose proof (two_pow_pos (la - lb)).
  pose proof (two_pow_pos (la - lb - 1)).
  destruct (Qle_bool (2 ^ (la - lb)) q) eqn:Hle.
  - apply Qle_bool_iff in Hle. split; [done|]. nra.
  - assert (q < 2 ^ (la - lb)) as Hlt.
    { apply Qnot_le_lt. intros Hc. apply Qle_bool_iff in Hc. congruence. }
    split; [|by rewrite <- Hk']. nra.
Qed.

Lemma floor_bounds (s : Q) : inject_Z (Qfloor s) <= s ∧ s < inject_Z (Qfloor s) + 1.
Proof.
  split; [apply Qfloor_le|].
  pose proof (Qlt_floor s) as H. by rewrite inject_Z_plus in H.
Qed.

Lemma nearestEven_near (s : Q) :
  - (1 # 2) <= inject_Z (nearestEven s) - s ∧ inject_Z (nearestEven s) - s <= 1 # 2.
Proof.
  unfold nearestEven. destruct (floor_bounds s) as [Hlo Hhi].
  set (m := Qfloor s) in *.
  assert (inject_Z (m + 1) == inject_Z m + 1) as Hm by (by rewrite inject_Z_plus).
  destruct (Qcompare_spec (s - inject_Z m) (1 # 2)) as [Heq|Hlt|Hgt].
  - destruct (Z.even m); [|rewrite Hm]; lra.
  - lra.
  - rewrite Hm. lra.
Qed.

(** Rounding to 53 bits moves a positive number by at most [2^-53] of it. *)
Lemma roundPos_error (q : Q) :
  0 < q →
  - (q * (1 # 2 ^ 53)) <= roundPos q - q ∧ roundPos q - q <= q * (1 # 2 ^ 53).
Proof.
  intros Hq. unfold roundPos.
  destruct (ilog2_spec q Hq) as [Hlo _].
  set (e := (ilog2 q - 52)%Z).
  assert (2 ^ ilog2 q == 2 ^ 52 * 2 ^ e) as He.
  { rewrite <- Qpower_plus by done. by replace (52 + e)%Z with (ilog2 q) by (unfold e; lia). }
  pose proof (two_pow_pos e) as Hpos.
  assert (q / 2 ^ e * 2 ^ e == q) as Hs by (field; lra).
  destruct (nearestEven_near (q / 2 ^ e)) as [Hn1 Hn2].
  set (m := inject_Z (nearestEven (q / 2 ^ e))) in *.
  set (s := q / 2 ^ e) in *. set (E := 2 ^ e) in *.
  assert (2 ^ 52 == 4503599627370496) as H52 by reflexivity.
  assert ((1 # 2 ^ 53) == (1 # 9007199254740992)) as H53 by reflexivity.
  rewrite He, H52 in Hlo. rewrite H53. clearbody m s E. clear He H52 H53.
  split; nra.
Qed.

Definition ulp : Q := 1 # 2 ^ 53.

Lemma round64_error (q : Q) :
  0 <= q → 0 <= round64 q ∧ - (q * ulp) <= round64 q - q ∧ round64 q - q <= q * ulp.
Proof.
  intros Hq. unfold round64, ulp.
  destruct (Qcompare_spec q 0) as [Heq|Hlt|Hgt].
  - rewrite Heq. lra.
  - lra.
  - destruct (roundPos_error q Hgt) as [H1 H2].
    assert ((1 # 2 ^ 53) == (1 # 9007199254740992)) as H53 by reflexivity.
    rewrite H53 in *. split; [|done]. nra.
Qed.

Lemma hundredths_near (x : Q) :
  - (1 # 2) < inject_Z (hundredths x) - x * 100
  ∧ inject_Z (hundredths x) - x * 100 <= 1 # 2.
Proof.
  unfold hundredths. destruct (floor_bounds (x * 100 + (1 # 2))) as [Hlo Hhi]. lra.
Qed.

(** The number [toFixed(2)] prints for [(h / t) * 100], in hundredths: at most
    half a hundredth, and twice the rounding unit of the exact percentage,
    away from the exact percentage. *)
Lemma percent_error (h t : Q) :
  0 <= h → 0 < t →
  let exact := 100 * h / t in
  let n := hundredths (round64 (round64 (h / t) * 100)) in
  0 <= round64 (round64 (h / t) * 100)
  ∧ Qabs (inject_Z n / 100 - exact) <= (1 # 200) + exact * (1 # 10 ^ 15).
Proof.
  intros Hh Ht exact n.
  assert (0 <= h / t) as Hr.
  { apply Qle_shift_div_l; [done|]. lra. }
  destruct (round64_error (h / t) Hr) as (Hy1 & Hlo1 & Hhi1).
  set (y1 := round64 (h / t)) in *.
  assert (0 <= y1 * 100) as Hy1' by lra.
  destruct (round64_error (y1 * 100) Hy1') as (Hy2 & Hlo2 & Hhi2).
  unfold n. fold y1. set (y2 := round64 (y1 * 100)) in *.
  destruct (hundredths_near y2) as [Hn1 Hn2].
  set (k := inject_Z (hundredths y2)) in *.
  assert (exact == 100 * (h / t)) as -> by (unfold exact; field; lra).
  set (r := h / t) in *.
  assert (ulp == (1 # 9007199254740992)) as Hu by reflexivity.
  assert ((1 # 10 ^ 15) == (1 # 1000000000000000)) as -> by reflexivity.
  assert (k / 100 == k * (1 # 100)) as -> by (field; lra).
  rewrite Hu in *. clearbody k y2 y1 r.
  split; [done|]. apply Qabs_Qle_condition. split; lra.
Qed.

End NumberFacts.

(** The exact percentage of hits among the requests. *)
Definition exactPercent (st : CacheStats) : Q :=
  (100 * inject_Z (Z.of_N (hits st)) / inject_Z (Z.of_N (totalRequests st)))%Q.

Lemma percentage_accurate (st : CacheStats) :
  (0 < totalRequests st)%N →
  ∃ n : Z,
    percentage st = (Number.renderHundredths n ++ "%")%string
    ∧ (Qabs (inject_Z n / 100 - exactPercent st)
       <= (1 # 200) + exactPercent st * (1 # 10 ^ 15))%Q.
Proof.
  intros Ht. unfold percentage, exactPercent, Number.ofN, Number.div.
  set (h := inject_Z (Z.of_N (hits st))). set (t := inject_Z (Z.of_N (totalRequests st))).
  assert (0 <= h)%Q as Hh by (unfold h; rewrite <- (Zle_Qle 0); lia).
  assert (0 < t)%Q as Ht' by (unfold t; rewrite <- (Zlt_Qlt 0); lia).
  assert (Qeq_bool t 0 = false) as ->.
  { apply not_true_iff_false. intros Heq. apply Qeq_bool_iff in Heq. lra. }
  destruct (NumberFacts.percent_error h t Hh Ht') as [Hpos Hacc].
  simpl. unfold Number.isNegative.
  assert (Qle_bool 0 (Number.round64 (Number.round64 (h / t) * 100)) = true) as ->
    by (by apply Qle_bool_iff).
  simpl. eexists. split; [reflexivity|]. exact Hacc.
Qed.

(** What the guard on [totalRequests] avoids: [0 / 0] is NaN. *)
Example percentage_unguarded : percentage (mkStats 0 0 0) = "NaN%"%string.
Proof. reflexivity. Qed.

Example renderHundredths_examples :
  Number.renderHundredths 5000 = "50.00"%string
  ∧ Number.renderHundredths 13 = "0.13"%string
  ∧ Number.renderHundredths 0 = "0.00"%string
  ∧ Number.renderHundredths 10000 = "100.00"%string.
Proof. by split_and!. Qed.

(** C5. At every state: with [totalRequests = 0] the reported [hitRate] is
    ["0%"], and no division takes place; with [totalRequests > 0] it is the
    two-decimal rendering, followed by ["%"], of a number of hundredths that
    is within half a hundredth (and the rounding of the two floating-point
    operations) of [100 * hits / totalRequests].  The reported [cacheSize] is
    the number of entries of the table, and an entry past its time to live
    that no sweep has removed is one of them. *)
Theorem hit_rate_and_size (s : Server) :
  let st := cacheStats s in
  let report := getCacheStats s in
  (totalRequests st = 0%N → hitRate report = "0%"%string)
  ∧ ((0 < totalRequests st)%N →
       ∃ n : Z,
         hitRate report = (Number.renderHundredths n ++ "%")%string
         ∧ (Qabs (inject_Z n / 100 - exactPercent st)
            <= (1 # 200) + exactPercent st * (1 # 10 ^ 15))%Q)
  ∧ spread report = st
  ∧ cacheSize report = length (map_to_list (cache s))
  ∧ (∀ key item now,
       cache s !! key = Some item → CACHE_TTL <= now - timestamp item →
       getCachedData key now (cache s) = None
       ∧ cacheSize report = S (size (delete key (cache s)))).
Proof.
  intros st report. unfold report, getCacheStats; simpl. split_and!.
  - fold st. by intros ->.
  - fold st. intros Ht. assert ((0 <? totalRequests st)%N = true) as ->
      by (by apply N.ltb_lt).
    by apply percentage_accurate.
  - done.
  - by rewrite length_map_to_list.
  - intros key item now Hc Hage. split.
    + apply getCachedData_None. eauto.
    + rewrite <- (insert_id (cache s) key item) at 1 by done.
      rewrite <- insert_delete_eq. apply map_size_insert_None, lookup_delete_eq.
Qed.

Lemma hit_rate_witness :
  let s := mkServer (setCachedData "k" "v" 0 ∅) (mkStats 1 2 3) in
  (∃ n : Z,
      hitRate (getCacheStats s) = (Number.renderHundredths n ++ "%")%string
      ∧ (Qabs (inject_Z n / 100 - exactPercent (mkStats 1 2 3))
         <= (1 # 200) + exactPercent (mkStats 1 2 3) * (1 # 10 ^ 15))%Q)
  ∧ hitRate (getCacheStats s) = "33.33%"%string
  ∧ getCachedData "k" CACHE_TTL (cache s) = None
  ∧ cacheSize (getCacheStats s) = 1%nat.
Proof.
  intros s.
  destruct (hit_rate_and_size s) as (_ & Hrate & _ & _ & Hsize).
  split_and!.
  - apply Hrate. reflexivity.
  - reflexivity.
  - apply (Hsize "k"%string (mkItem "v" 0) CACHE_TTL); [reflexivity | reflexivity].
  - reflexivity.
Defined.

(** * Further properties of the cache and of the handlers *)

(** ** The sweep, seen from the readers *)

(** X1. A sweep is invisible to every reader that reads the clock no
    earlier than the sweep did: [getCachedData], the counted lookup and the
    whole [/api/data] request answer after the sweep as they would have
    without it.  The sweep only reclaims memory. *)
Theorem sweep_is_invisible_to_later_reads
    (swept now : Z) (key : string) (s : Server)
    (referer : option string) (file : FileRead) (now' : Z) :
  swept <= now →
  getCachedData key now (cache (sweep swept s)) = getCachedData key now (cache s)
  ∧ fst (checkCache key now (sweep swept s)) = fst (checkCache key now s)
  ∧ cacheStats (snd (checkCache key now (sweep swept s)))
    = cacheStats (snd (checkCache key now s))
  ∧ fst (apiData referer now file now' (sweep swept s))
    = fst (apiData referer now file now' s).
Proof.
  intros Hle.
  assert (∀ k, getCachedData k now (cache (sweep swept s)) = getCachedData k now (cache s))
    as Hread.
  { intros k. unfold getCachedData, sweep, cache at 1.
    rewrite clearExpiredCache_lookup.
    destruct (cache s !! k) as [item|]; [|done].
    unfold stale, fresh.
    destruct (Z.ltb_spec CACHE_TTL (swept - timestamp item)) as [Hst|Hst]; [|done].
    by destruct (Z.ltb_spec (now - timestamp item) CACHE_TTL); [lia|]. }
  split_and!.
  - apply Hread.
  - unfold checkCache; simpl. apply Hread.
  - unfold checkCache. simpl. pose proof (Hread key) as Hk.
    unfold sweep, cache at 1 in Hk. by rewrite Hk.
  - unfold apiData. destruct (blocked referer); [done|].
    unfold checkCache. pose proof (Hread cacheKey) as Hk.
    unfold sweep in *. simpl in *. rewrite Hk.
    destruct (truthy _); [done|]. by destruct file.
Qed.

Lemma sweep_invisible_witness :
  let s := store "k" "v" 0 initial in
  getCachedData "k" 1800001 (cache (sweep 1800001 s)) = getCachedData "k" 1800001 (cache s)
  ∧ fst (checkCache "k" 1800001 (sweep 1800001 s)) = fst (checkCache "k" 1800001 s)
  ∧ cacheStats (snd (checkCache "k" 1800001 (sweep 1800001 s)))
    = cacheStats (snd (checkCache "k" 1800001 s))
  ∧ fst (apiData None 1800001 ReadError 0 (sweep 1800001 s))
    = fst (apiData None 1800001 ReadError 0 s).
Proof.
  apply (sweep_is_invisible_to_later_reads 1800001 1800001 "k"
           (store "k" "v" 0 initial) None ReadError 0).
  lia.
Defined.

(** X2. Sweeps compose: a sweep followed by a sweep at the same or a later
    time leaves what the later sweep alone leaves (so sweeping twice at one
    time is sweeping once), and a sweep never adds an entry. *)
Theorem later_sweep_absorbs_earlier (t1 t2 : Z) (c : Cache) :
  t1 <= t2 →
  clearExpiredCache t2 (clearExpiredCache t1 c) = clearExpiredCache t2 c
  ∧ clearExpiredCache t1 (clearExpiredCache t1 c) = clearExpiredCache t1 c
  ∧ (size (clearExpiredCache t2 c) ≤ size (clearExpiredCache t1 c) ≤ size c)%nat.
Proof.
  intros Hle.
  assert (∀ a b, a <= b →
            clearExpiredCache b (clearExpiredCache a c) = clearExpiredCache b c) as Habs.
  { intros a b Hab. apply map_eq. intros key. rewrite !clearExpiredCache_lookup.
    destruct (c !! key) as [item|]; [|done]. unfold stale.
    destruct (Z.ltb_spec CACHE_TTL (a - timestamp item)) as [Ha|Ha]; [|done].
    by destruct (Z.ltb_spec CACHE_TTL (b - timestamp item)); [|lia]. }
  split_and!.
  - by apply Habs.
  - by apply Habs.
  - rewrite <- (Habs t1 t2 Hle). rewrite (clearExpiredCache_filter t2).
    apply map_size_filter.
  - rewrite clearExpiredCache_filter. apply map_size_filter.
Qed.

Lemma later_sweep_witness :
  let c := setCachedData "b" "y" 1000 (setCachedData "a" "x" 0 ∅) in
  clearExpiredCache 1801001 (clearExpiredCache 1800001 c) = clearExpiredCache 1801001 c
  ∧ clearExpiredCache 1800001 (clearExpiredCache 1800001 c) = clearExpiredCache 1800001 c
  ∧ (size (clearExpiredCache 1801001 c) ≤ size (clearExpiredCache 1800001 c) ≤ size c)%nat.
Proof.
  apply (later_sweep_absorbs_earlier 1800001 1801001
           (setCachedData "b" "y" 1000 (setCachedData "a" "x" 0 ∅))).
  lia.
Defined.

(** ** Whole requests *)

(** A request served from the cache: the answer and the new state do not
    depend on the data file or on the second reading of the clock. *)
Lemma apiData_hit referer now file now' s item :
  blocked referer = false →
  cache s !! cacheKey = Some item →
  now - timestamp item < CACHE_TTL →
  data item ≠ ""%string →
  apiData referer now file now' s
  = (Sent (data item), mkServer (cache s) (countHit (cacheStats s))).
Proof.
  intros Hb Hc Hage Hd. unfold apiData. rewrite Hb.
  rewrite (checkCache_hit cacheKey now s item) by done.
  assert (truthy (Some (data item)) = Some (data item)) as -> by (by apply truthy_Some).
  done.
Qed.

(** The requests and reads of a run, with every request reading the clock
    inside the window of [item]. *)
Definition readsWithin (item : CacheItem) (op : Op) : bool :=
  match op with
  | OpRequest _ now _ _ => now - timestamp item <? CACHE_TTL
  | OpGet _ _ | OpStats => true
  | _ => false
  end.

(** X3. The expiry is absolute, not sliding.  Requests that hit leave the
    entry as it is, timestamp included, however many they are and whatever
    the state of the data file; so the entry stops being served
    [CACHE_TTL] after it was stored, no matter how often it was read. *)
Theorem hits_do_not_extend_the_lifetime
    (item : CacheItem) (ops : list Op) (s : Server) :
  cache s !! cacheKey = Some item →
  data item ≠ ""%string →
  forallb (readsWithin item) ops = true →
  cache (run ops s) = cache s
  ∧ ∀ referer later file later',
      CACHE_TTL <= later - timestamp item →
      blocked referer = false →
      cacheStats (snd (apiData referer later file later' (run ops s)))
      = countMiss (cacheStats (run ops s)).
Proof.
  intros Hc Hd Hops.
  assert (cache (run ops s) = cache s) as Hsame.
  { revert s Hc Hops. induction ops as [|op ops IH]; intros s Hc Hops; [done|].
    simpl in Hops. apply andb_true_iff in Hops as [Hop Hops]. simpl.
    assert (cache (step s op) = cache s) as Hstep.
    { destruct op as [k t|k d t|t| | |referer t file t']; try done.
      unfold readsWithin in Hop. apply Z.ltb_lt in Hop. unfold step.
      destruct (blocked referer) eqn:Hb.
      - unfold apiData. by rewrite Hb.
      - by rewrite (apiData_hit referer t file t' s item). }
    rewrite IH; [done|by rewrite Hstep|done]. }
  split; [done|]. intros referer later file later' Hage Hb.
  unfold apiData. rewrite Hb.
  rewrite checkCache_miss by (right; exists item; by rewrite Hsame).
  simpl. by destruct file.
Qed.

Lemma hits_witness :
  let s := store cacheKey "payload" 0 initial in
  let ops := [OpRequest None 10 ReadError 10; OpStats;
              OpRequest None 1799999 (Contents "new") 1799999] in
  cache (run ops s) = cache s
  ∧ ∀ referer later file later',
      CACHE_TTL <= later - 0 →
      blocked referer = false →
      cacheStats (snd (apiData referer later file later' (run ops s)))
      = countMiss (cacheStats (run ops s)).
Proof.
  apply (hits_do_not_extend_the_lifetime (mkItem "payload" 0)
           [OpRequest None 10 ReadError 10; OpStats;
            OpRequest None 1799999 (Contents "new") 1799999]
           (store cacheKey "payload" 0 initial)).
  - reflexivity.
  - discriminate.
  - reflexivity.
Defined.



(** X5. What a request sends is never an expired payload: the body is
    either the payload of an entry younger than [CACHE_TTL], or the text
    the request itself has just read from the data file.  An expired entry
    is not served even when the reload fails: the answer is then the
    error. *)
Theorem sent_body_is_fresh_or_just_read
    (referer : option string) (now now' : Z) (file : FileRead) (s : Server) :
  (∀ body,
     fst (apiData referer now file now' s) = Sent body →
     (∃ item, cache s !! cacheKey = Some item
              ∧ now - timestamp item < CACHE_TTL ∧ data item = body)
     ∨ file = Contents body)
  ∧ (∀ item,
       cache s !! cacheKey = Some item → CACHE_TTL <= now - timestamp item →
       blocked referer = false → file = ReadError →
       fst (apiData referer now file now' s) = ServerError).
Proof.
  split.
  - intros body. unfold apiData. destruct (blocked referer); [done|].
    unfold checkCache.
    destruct (truthy (getCachedData cacheKey now (cache s))) as [text|] eqn:Ht.
    + simpl. intros Heq. injection Heq as ->. left.
      apply truthy_Some in Ht as [Hd _]. by apply getCachedData_Some in Hd.
    + destruct file as [text|]; simpl; [|done]. intros Heq. injection Heq as ->.
      by right.
  - intros item Hc Hage Hb ->. unfold apiData. rewrite Hb.
    by rewrite checkCache_miss by (right; by exists item).
Qed.

Lemma sent_body_witness :
  let s := store cacheKey "old" 0 initial in
  fst (apiData None 1800000 ReadError 1800000 s) = ServerError
  ∧ ((∃ item, cache s !! cacheKey = Some item
              ∧ 1 - timestamp item < CACHE_TTL ∧ data item = "old"%string)
     ∨ Contents "new" = Contents "old").
Proof.
  intros s.
  destruct (sent_body_is_fresh_or_just_read None 1800000 1800000 ReadError s) as [_ Herr].
  destruct (sent_body_is_fresh_or_just_read None 1 1 (Contents "new") s) as [Hsent _].
  split.
  - apply (Herr (mkItem "old" 0)); reflexivity || discriminate.
  - apply Hsent. reflexivity.
Defined.

(** ** What the server itself can put in the table *)

(** The callbacks of the server: everything but a direct [setCachedData]
    under a key of the caller's choice, which no route of the server
    offers. *)
Definition isCallback (op : Op) : bool :=
  match op with
  | OpSet _ _ _ => false
  | _ => true
  end.

(** The table holds nothing, or one entry under [cacheKey]. *)
Definition atMostTheData (c : Cache) : Prop :=
  c = ∅ ∨ ∃ item, c = {[cacheKey := item]}.

Lemma atMostTheData_sweep now (c : Cache) :
  atMostTheData c → atMostTheData (clearExpiredCache now c).
Proof.
  intros [-> | [item ->]].
  - left. apply map_eq. intros key. by rewrite clearExpiredCache_lookup, lookup_empty.
  - destruct (stale now item) eqn:Hst.
    + left. apply map_eq. intros key.
      rewrite clearExpiredCache_lookup, lookup_empty.
      destruct (decide (key = cacheKey)) as [->|Hne].
      * by rewrite lookup_singleton_eq, Hst.
      * by rewrite lookup_singleton_ne.
    + right. exists item. apply map_eq. intros key.
      rewrite clearExpiredCache_lookup.
      destruct (decide (key = cacheKey)) as [->|Hne].
      * by rewrite lookup_singleton_eq, Hst.
      * by rewrite lookup_singleton_ne.
Qed.

Lemma atMostTheData_store d now (c : Cache) :
  atMostTheData c → atMostTheData (setCachedData cacheKey d now c).
Proof.
  unfold setCachedData. intros [-> | [item ->]]; right; exists (mkItem d now).
  - apply insert_empty.
  - apply insert_singleton_eq.
Qed.

Lemma atMostTheData_step s op :
  isCallback op = true → atMostTheData (cache s) → atMostTheData (cache (step s op)).
Proof.
  intros Hop H. destruct op as [k t|k d t|t| | |referer t file t']; try done.
  - by apply atMostTheData_sweep.
  - by left.
  - unfold step, apiData. destruct (blocked referer); [done|].
    unfold checkCache. destruct (truthy _); [done|].
    destruct file as [text|]; [|done]. by apply atMostTheData_store.
Qed.

(** X6. Whatever requests, sweeps, clears and reports the server has run
    since it started, its table holds at most one entry, and the key of
    that entry is ['wbjee_full_data']: the memory the cache takes is one
    copy of the data file at most. *)
Theorem table_holds_at_most_the_data (ops : list Op) :
  forallb isCallback ops = true →
  (∀ key, is_Some (cache (run ops initial) !! key) → key = cacheKey)
  ∧ (size (cache (run ops initial)) ≤ 1)%nat
  ∧ (cacheSize (getCacheStats (run ops initial)) ≤ 1)%nat.
Proof.
  intros Hops.
  assert (atMostTheData (cache (run ops initial))) as Hinv.
  { assert (atMostTheData (cache initial)) as H0 by (by left).
    revert H0 Hops. generalize initial.
    induction ops as [|op ops IH]; intros s H0 Hops; [done|].
    simpl in Hops. apply andb_true_iff in Hops as [Hop Hops].
    simpl. apply IH; [|done]. by apply atMostTheData_step. }
  unfold getCacheStats; simpl.
  destruct Hinv as [-> | [item ->]].
  - split_and!.
    + intros key [x Hx]. by rewrite lookup_empty in Hx.
    + rewrite map_size_empty. lia.
    + rewrite map_size_empty. lia.
  - split_and!.
    + intros key [x Hx]. destruct (decide (key = cacheKey)) as [->|Hne]; [done|].
      by rewrite lookup_singleton_ne in Hx.
    + rewrite map_size_singleton. lia.
    + rewrite map_size_singleton. lia.
Qed.

Lemma table_witness :
  let ops := [OpRequest None 0 (Contents "a") 0; OpSweep 5;
              OpRequest None 1800000 (Contents "b") 1800000; OpGet "other" 3] in
  (∀ key, is_Some (cache (run ops initial) !! key) → key = cacheKey)
  ∧ (size (cache (run ops initial)) ≤ 1)%nat
  ∧ (cacheSize (getCacheStats (run ops initial)) ≤ 1)%nat.
Proof.
  apply (table_holds_at_most_the_data
           [OpRequest None 0 (Contents "a") 0; OpSweep 5;
            OpRequest None 1800000 (Contents "b") 1800000; OpGet "other" 3]).
  reflexivity.
Defined.

(** ** What the counters count *)

(** The operations that count a request: a counted lookup, and a request
    that passes the referer check. *)
Definition counts (op : Op) : bool :=
  match op with
  | OpGet _ _ => true
  | OpRequest referer _ _ _ => negb (blocked referer)
  | _ => false
  end.

Definition isClear (op : Op) : bool :=
  match op with
  | OpClear => true
  | _ => false
  end.

Lemma step_totalRequests s op :
  isClear op = false →
  totalRequests (cacheStats (step s op))
  = (totalRequests (cacheStats s) + (if counts op then 1 else 0))%N.
Proof.
  intros Hop. destruct op as [k t|k d t|t| | |referer t file t']; simpl; try done.
  - destruct (truthy _); simpl; lia.
  - lia.
  - lia.
  - lia.
  - unfold apiData. destruct (blocked referer); simpl; [lia|].
    destruct (truthy _); simpl; [lia|]. destruct file; simpl; lia.
Qed.

(** X7. Between two clears [totalRequests] counts exactly the requests for
    the data that passed the referer check, served or failed: a request
    refused with 403 is not counted, and a request whose file read throws
    is. *)
Theorem totalRequests_counts_the_admitted_requests (ops : list Op) (s : Server) :
  existsb isClear ops = false →
  totalRequests (cacheStats (run ops s))
  = (totalRequests (cacheStats s) + N.of_nat (length (List.filter counts ops)))%N.
Proof.
  revert s. induction ops as [|op ops IH]; intros s Hops; simpl; [lia|].
  simpl in Hops. apply orb_false_iff in Hops as [Hop Hops].
  rewrite IH by done. rewrite step_totalRequests by done.
  destruct (counts op); simpl length; lia.
Qed.

Lemma totalRequests_witness :
  let ops := [OpRequest None 0 ReadError 0;
              OpRequest (Some "https://example.org/") 1 (Contents "a") 1;
              OpSweep 2; OpRequest None 3 (Contents "a") 3] in
  totalRequests (cacheStats (run ops initial))
  = (totalRequests (cacheStats initial) + N.of_nat (length (List.filter counts ops)))%N
  ∧ totalRequests (cacheStats (run ops initial)) = 2%N.
Proof.
  split.
  - apply (totalRequests_counts_the_admitted_requests
             [OpRequest None 0 ReadError 0;
              OpRequest (Some "https://example.org/") 1 (Contents "a") 1;
              OpSweep 2; OpRequest None 3 (Contents "a") 3] initial).
    reflexivity.
  - reflexivity.
Defined.

(** ** The referer check *)

Lemma prefix_spec (a r : string) :
  String.prefix a r = true ↔ ∃ rest, r = (a ++ rest)%string.
Proof.
  revert r. induction a as [|c a IH]; intros r.
  - split; [intros _; by exists r | intros _; by destruct r].
  - destruct r as [|c' r].
    + split; [done|]. intros [rest Heq].
      change (String c a ++ rest)%string with (String c (a ++ rest)) in Heq. done.
    + simpl. destruct (ascii_dec c c') as [->|Hne].
      * rewrite IH. split; intros [rest Heq]; exists rest.
        -- by rewrite Heq.
        -- change (String c' a ++ rest)%string with (String c' (a ++ rest)) in Heq.
           by injection Heq.
      * split; [done|]. intros [rest Heq].
        change (String c a ++ rest)%string with (String c (a ++ rest)) in Heq.
        injection Heq as Hc _. congruence.
Qed.

Lemma append_assoc (a b c : string) : ((a ++ b) ++ c = a ++ (b ++ c))%string.
Proof.
  induction a as [|x a IH]; [done|].
  change (String x ((a ++ b) ++ c) = String x (a ++ (b ++ c)))%string. by rewrite IH.
Qed.

Lemma prefix_shorter (a b r : string) :
  String.prefix (a ++ b) r = true → String.prefix a r = true.
Proof.
  rewrite !prefix_spec. intros [rest ->]. exists (b ++ rest)%string.
  apply append_assoc.
Qed.

(** X8. The referer check of [/api/data] lets a request through exactly
    when it carries no referer, an empty one, or one that starts with
    ["http://localhost:3000"] or with
    ["https://wbjee-college-predictor.vercel.app"]: the third entry of the
    list, with the slash, never decides.  Whatever follows the origin is
    not looked at, so a referer on another host whose name merely begins
    like the allowed one passes.  A request that is refused changes neither
    the table nor the counters. *)
Theorem referer_check_is_a_prefix_test :
  blocked None = false
  ∧ (∀ r,
       blocked (Some r) = false
       ↔ r = ""%string
         ∨ (∃ rest, r = ("http://localhost:3000" ++ rest)%string)
         ∨ (∃ rest, r = ("https://wbjee-college-predictor.vercel.app" ++ rest)%string))
  ∧ (∀ referer now file now' s,
       blocked referer = true → apiData referer now file now' s = (Forbidden, s)).
Proof.
  split_and!.
  - done.
  - intros r. unfold blocked, allowedOrigins. simpl existsb.
    rewrite <- !prefix_spec.
    destruct (String.eqb_spec r "") as [->|Hr]; simpl; [by split; [left|]|].
    rewrite orb_false_r.
    destruct (String.prefix "http://localhost:3000" r) eqn:H1; simpl.
    { split; [by right; left | done]. }
    destruct (String.prefix "https://wbjee-college-predictor.vercel.app" r) eqn:H2; simpl.
    { split; [by right; right | done]. }
    destruct (String.prefix "https://wbjee-college-predictor.vercel.app/" r) eqn:H3; simpl.
    { apply (prefix_shorter "https://wbjee-college-predictor.vercel.app" "/") in H3.
      congruence. }
    split; [done|]. intros [? | [? | ?]]; done.
  - intros referer now file now' s Hb. unfold apiData. by rewrite Hb.
Qed.

Lemma referer_check_witness :
  blocked (Some "https://wbjee-college-predictor.vercel.app.example.net/page") = false
  ∧ blocked (Some "https://example.org/") = true
  ∧ apiData (Some "https://example.org/") 0 (Contents "a") 0 initial = (Forbidden, initial).
Proof.
  destruct referer_check_is_a_prefix_test as (_ & Hiff & Hrefused).
  split_and!.
  - apply Hiff. right. right. by exists ".example.net/page"%string.
  - reflexivity.
  - apply Hrefused. reflexivity.
Defined.

(** ** The [X-Cache-Status] header *)

(** [data ? 'HIT' : 'MISS'] on the payload about to be sent. *)
Definition cacheStatusOf (payload : string) : string :=
  if String.eqb payload "" then "MISS"%string else "HIT"%string.

(** [res.setHeader('X-Cache-Status', data ? 'HIT' : 'MISS')], where the
    handler sets it: after the branch on the cache check, when [data] is
    the cached payload or, after a miss, the text read from the file.  A
    refused request and a failed read set no such header. *)
Definition xCacheStatus (referer : option string) (now : Z) (file : FileRead)
    (s : Server) : option string :=
  if blocked referer then None
  else
    match truthy (getCachedData cacheKey now (cache s)) with
    | Some text => Some (cacheStatusOf text)
    | None =>
        match file with
        | Contents text => Some (cacheStatusOf text)
        | ReadError => None
        end
    end.

(** X9. The [X-Cache-Status] header does not tell hits from misses.  It is
    set on the responses that send a body, and it reads ["HIT"] whenever
    the body is not empty: also on a request that missed the cache, was
    counted a miss and read the file.  It reads ["MISS"] only with an empty
    body. *)
Theorem cache_status_header_reports_the_body
    (referer : option string) (now now' : Z) (file : FileRead) (s : Server) :
  (∀ body,
     fst (apiData referer now file now' s) = Sent body →
     xCacheStatus referer now file s
     = Some (if String.eqb body "" then "MISS" else "HIT")%string)
  ∧ (∀ text,
       blocked referer = false →
       truthy (getCachedData cacheKey now (cache s)) = None →
       file = Contents text → text ≠ ""%string →
       xCacheStatus referer now file s = Some "HIT"%string
       ∧ cacheStats (snd (apiData referer now file now' s)) = countMiss (cacheStats s)).
Proof.
  split.
  - intros body. unfold apiData, xCacheStatus, checkCache.
    destruct (blocked referer); [done|].
    destruct (truthy (getCachedData cacheKey now (cache s))) as [text|]; simpl.
    + intros Heq. by injection Heq as ->.
    + destruct file as [text|]; [|done]. simpl. intros Heq. by injection Heq as ->.
  - intros text Hb Hmiss -> Htext. unfold apiData, xCacheStatus, checkCache.
    rewrite Hb, Hmiss. simpl. split; [|done]. unfold cacheStatusOf.
    by destruct (String.eqb_spec text "").
Qed.

Lemma cache_status_witness :
  xCacheStatus None 0 (Contents "rows") initial = Some "HIT"%string
  ∧ cacheStats (snd (apiData None 0 (Contents "rows") 0 initial)) = countMiss (cacheStats initial).
Proof.
  destruct (cache_status_header_reports_the_body None 0 0 (Contents "rows") initial)
    as [_ H].
  apply (H "rows"%string); reflexivity || discriminate.
Defined.

(** ** Writes and reads of the table *)

(** X10. Reading back what was written.  [getCachedData] after
    [setCachedData] under the same key returns the written payload (the
    empty string too) while the age is below [CACHE_TTL], and [null] from
    then on; the write does not change what any other key reads; it adds
    one entry for a new key and none for a key that was there; and of two
    writes under one key the table keeps the second only. *)
Theorem written_payload_reads_back
    (key : string) (d : string) (now t : Z) (c : Cache) :
  getCachedData key t (setCachedData key d now c)
  = (if t - now <? CACHE_TTL then Some d else None)
  ∧ (∀ key', key ≠ key' →
       getCachedData key' t (setCachedData key d now c) = getCachedData key' t c)
  ∧ size (setCachedData key d now c)
    = (if c !! key is Some _ then size c else S (size c))
  ∧ (∀ d0 now0,
       setCachedData key d now (setCachedData key d0 now0 c) = setCachedData key d now c).
Proof.
  unfold setCachedData. split_and!.
  - unfold getCachedData. by rewrite lookup_insert_eq.
  - intros key' Hne. unfold getCachedData. by rewrite lookup_insert_ne.
  - destruct (c !! key) as [item|] eqn:Hc.
    + apply map_size_insert_Some. by exists item.
    + by apply map_size_insert_None.
  - intros d0 now0. apply insert_insert_eq.
Qed.

Lemma written_payload_witness :
  getCachedData "a" 1799999 (setCachedData "a" "x" 0 ∅) = Some "x"%string
  ∧ getCachedData "a" 1800000 (setCachedData "a" "x" 0 ∅) = None
  ∧ getCachedData "b" 5 (setCachedData "a" "x" 0 (setCachedData "b" "y" 1 ∅)) = Some "y"%string.
Proof.
  split_and!.
  - apply (written_payload_reads_back "a" "x" 0 1799999 ∅).
  - apply (written_payload_reads_back "a" "x" 0 1800000 ∅).
  - destruct (written_payload_reads_back "a" "x" 0 5 (setCachedData "b" "y" 1 ∅))
      as (_ & Hother & _).
    rewrite (Hother "b"%string); [reflexivity | discriminate].
Defined.

(** ** Numbers that the rounding leaves alone *)
Module NumberExact.
Import Number NumberFacts.
Local Open Scope Q_scope.

Lemma two_pow_le (j k : Z) : (j <= k)%Z → 2 ^ j <= 2 ^ k.
Proof. intros. by apply Qpower_le_compat_l. Qed.

Lemma ilog2_unique (q : Q) (k : Z) : 0 < q → 2 ^ k <= q → q < 2 * 2 ^ k → ilog2 q = k.
Proof.
  intros Hq Hlo Hhi. destruct (ilog2_spec q Hq) as [Hlo' Hhi'].
  rewrite <- two_pow_succ in Hhi, Hhi'.
  destruct (Z.lt_trichotomy (ilog2 q) k) as [Hlt | [Heq | Hgt]]; [|done|].
  - pose proof (two_pow_le (ilog2 q + 1) k ltac:(lia)). lra.
  - pose proof (two_pow_le (k + 1) (ilog2 q) ltac:(lia)). lra.
Qed.

Lemma nearestEven_inject (s : Q) (n : Z) : s == inject_Z n → nearestEven s = n.
Proof.
  intros Hs. unfold nearestEven.
  assert (Qfloor s = n) as -> by (rewrite Hs; apply Qfloor_Z).
  assert (s - inject_Z n < 1 # 2) as Hlt by (rewrite Hs; lra).
  destruct (Qcompare_spec (s - inject_Z n) (1 # 2)) as [Hc|Hc|Hc]; [lra|done|lra].
Qed.

Lemma scale_bounds (a b m : Q) :
  0 < b → a <= m → m < 2 * a → a * b <= m * b ∧ m * b < 2 * (a * b).
Proof. intros. split; nra. Qed.

(** A positive number with a significand of at most 53 bits is its own
    rounding. *)
Lemma roundPos_exact (q : Q) (m j : Z) :
  (0 < m < 2 ^ 53)%Z → q == inject_Z m * 2 ^ j → roundPos q == q.
Proof.
  intros [Hm Hm53] Hq.
  destruct (log2_bounds m Hm) as [Hlo Hhi].
  assert (0 <= Z.log2 m <= 52)%Z as Hlog.
  { split; [apply Z.log2_nonneg|].
    assert (Z.log2 m < 53)%Z; [|lia]. apply Z.log2_lt_pow2; lia. }
  set (l := Z.log2 m) in *.
  pose proof (two_pow_pos j) as Hj. pose proof (two_pow_pos l) as Hl.
  assert (2 ^ (l + j) == 2 ^ l * 2 ^ j) as Hlj by (by rewrite Qpower_plus).
  assert (0 < q) as Hqpos.
  { rewrite Hq. apply Qmult_lt_0_compat; [|done]. by rewrite <- (Zlt_Qlt 0). }
  assert (ilog2 q = (l + j)%Z) as Hk.
  { destruct (scale_bounds (2 ^ l) (2 ^ j) (inject_Z m)) as [Hb1 Hb2]; [done..|].
    apply ilog2_unique; [done| |]; by rewrite Hq, Hlj. }
  unfold roundPos. rewrite Hk.
  set (e := (l + j - 52)%Z).
  pose proof (two_pow_pos e) as He.
  assert (2 ^ j == 2 ^ (52 - l) * 2 ^ e) as Hje.
  { rewrite <- Qpower_plus by done. by replace (52 - l + e)%Z with j by (unfold e; lia). }
  assert (q / 2 ^ e == inject_Z (m * 2 ^ (52 - l))) as Hs.
  { rewrite inject_Z_mult, two_pow_inject by lia. rewrite Hq, Hje. field. lra. }
  rewrite (nearestEven_inject _ _ Hs).
  rewrite inject_Z_mult, two_pow_inject by lia. rewrite Hq, Hje. ring.
Qed.

Lemma round64_exact (q : Q) (m j : Z) :
  (0 <= m < 2 ^ 53)%Z → q == inject_Z m * 2 ^ j → round64 q == q.
Proof.
  intros [Hm Hm53] Hq. unfold round64.
  destruct (Qcompare_spec q 0) as [Heq|Hlt|Hgt].
  - by rewrite Heq.
  - exfalso. assert (0 <= q); [|lra]. rewrite Hq.
    apply Qmult_le_0_compat; [by rewrite <- (Zle_Qle 0)|]. pose proof (two_pow_pos j). lra.
  - destruct (Z.eq_dec m 0%Z) as [->|Hne].
    + exfalso. rewrite Hq in Hgt. change (inject_Z 0) with 0 in Hgt.
      generalize dependent (2 ^ j). intros. lra.
    + apply (roundPos_exact q m j); [lia|done].
Qed.

End NumberExact.

(** ** The range and the ends of the hit rate *)

Lemma consistent_hits_le st : consistent st → (hits st <= totalRequests st)%N.
Proof. unfold consistent. lia. Qed.

(** X11. In every state the server can reach, once a request has been
    counted, the reported [hitRate] is a two-decimal percentage between
    ["0.00%"] and ["100.00%"]: the rounding of the floating-point
    operations never takes it below zero or above a hundred. *)
Theorem hit_rate_stays_in_range (ops : list Op) :
  (0 < totalRequests (cacheStats (run ops initial)))%N →
  ∃ n : Z,
    (0 <= n <= 10000)%Z
    ∧ hitRate (getCacheStats (run ops initial)) = (Number.renderHundredths n ++ "%")%string.
Proof.
  intros Ht. set (s := run ops initial) in *.
  assert (consistent (cacheStats s)) as Hcons by (by apply consistent_run).
  apply consistent_hits_le in Hcons.
  destruct (percentage_accurate (cacheStats s) Ht) as (n & Hstr & Hacc).
  exists n. split.
  - unfold exactPercent in Hacc.
    set (h := inject_Z (Z.of_N (hits (cacheStats s)))) in *.
    set (t := inject_Z (Z.of_N (totalRequests (cacheStats s)))) in *.
    assert (0 <= h)%Q as Hh by (unfold h; rewrite <- (Zle_Qle 0); lia).
    assert (0 < t)%Q as Ht' by (unfold t; rewrite <- (Zlt_Qlt 0); lia).
    assert (h <= t)%Q as Hht by (unfold h, t; rewrite <- Zle_Qle; lia).
    assert (100 * h / t == 100 * (h / t))%Q as Hp by (field; lra).
    assert (0 <= h / t)%Q as Hr0 by (apply Qle_shift_div_l; lra).
    assert (h / t <= 1)%Q as Hr1 by (apply Qle_shift_div_r; lra).
    assert ((1 # 10 ^ 15) == (1 # 1000000000000000))%Q as H15 by reflexivity.
    assert (inject_Z n / 100 == inject_Z n * (1 # 100))%Q as Hn by (field; lra).
    rewrite Hp, H15, Hn in Hacc. apply Qabs_Qle_condition in Hacc as [Hlo Hhi].
    set (r := (h / t)%Q) in *. clearbody r.
    assert (-1 < inject_Z n)%Q as Hn0 by lra.
    assert (inject_Z n < 10001)%Q as Hn1 by lra.
    change (-1)%Q with (inject_Z (-1)) in Hn0. change 10001%Q with (inject_Z 10001) in Hn1.
    rewrite <- Zlt_Qlt in Hn0, Hn1. lia.
  - unfold getCacheStats; simpl. fold s.
    by assert ((0 <? totalRequests (cacheStats s))%N = true) as -> by (by apply N.ltb_lt).
Qed.

Lemma hit_rate_range_witness :
  ∃ n : Z,
    (0 <= n <= 10000)%Z
    ∧ hitRate (getCacheStats (run [OpGet "k" 0; OpSet "k" "v" 1; OpGet "k" 2; OpGet "k" 3] initial))
      = (Number.renderHundredths n ++ "%")%string.
Proof.
  apply (hit_rate_stays_in_range [OpGet "k" 0; OpSet "k" "v" 1; OpGet "k" 2; OpGet "k" 3]).
  reflexivity.
Defined.

(** The hit rate of counters whose quotient and percentage are numbers
    that the rounding leaves alone. *)
Lemma percentage_exact (st : CacheStats) (ratio : Z) :
  (0 < totalRequests st)%N →
  (0 <= ratio <= 1)%Z →
  (inject_Z (Z.of_N (hits st)) / inject_Z (Z.of_N (totalRequests st)) == inject_Z ratio)%Q →
  percentage st = (Number.renderHundredths (10000 * ratio) ++ "%")%string.
Proof.
  intros Ht Hratio Hq. unfold percentage, Number.ofN, Number.div.
  set (h := inject_Z (Z.of_N (hits st))) in *.
  set (t := inject_Z (Z.of_N (totalRequests st))) in *.
  assert (0 < t)%Q as Ht' by (unfold t; rewrite <- (Zlt_Qlt 0); lia).
  assert (Qeq_bool t 0 = false) as ->.
  { apply not_true_iff_false. intros Heq. apply Qeq_bool_iff in Heq. lra. }
  simpl Number.mul.
  assert (Number.round64 (h / t) == inject_Z ratio)%Q as H1.
  { rewrite (NumberExact.round64_exact (h / t) ratio 0); [done|lia|]. rewrite Hq. ring. }
  assert (Number.round64 (Number.round64 (h / t) * 100) == inject_Z (100 * ratio))%Q as H2.
  { rewrite (NumberExact.round64_exact _ (100 * ratio) 0); [|lia|].
    - rewrite H1, inject_Z_mult. ring.
    - rewrite H1, inject_Z_mult. ring. }
  set (y := Number.round64 (Number.round64 (h / t) * 100)) in *.
  assert (0 <= y)%Q as Hy by (rewrite H2, <- (Zle_Qle 0); lia).
  unfold Number.toFixed2, Number.isNegative.
  apply Qle_bool_iff in Hy. rewrite Hy. simpl negb. cbv iota.
  unfold Number.hundredths.
  assert (y * 100 + (1 # 2) == (2 * (10000 * ratio) + 1) # 2)%Q as ->.
  { rewrite H2, inject_Z_mult. unfold Qeq, inject_Z. simpl. lia. }
  unfold Qfloor. replace ((2 * (10000 * ratio) + 1) / 2)%Z with (10000 * ratio)%Z; [done|].
  apply Z.div_unique with (r := 1%Z); lia.
Qed.

(** X12. The two ends of the hit rate.  With requests counted and no hit
    among them the report reads ["0.00%"] (not the ["0%"] of the state
    with no request at all); with every counted request a hit it reads
    ["100.00%"], exactly, whatever the number of requests. *)
Theorem hit_rate_at_its_ends (s : Server) :
  (0 < totalRequests (cacheStats s))%N →
  (hits (cacheStats s) = 0%N → hitRate (getCacheStats s) = "0.00%"%string)
  ∧ (hits (cacheStats s) = totalRequests (cacheStats s) →
       hitRate (getCacheStats s) = "100.00%"%string).
Proof.
  intros Ht. unfold getCacheStats; simpl.
  assert ((0 <? totalRequests (cacheStats s))%N = true) as -> by (by apply N.ltb_lt).
  assert (0 < inject_Z (Z.of_N (totalRequests (cacheStats s))))%Q as Ht'
    by (rewrite <- (Zlt_Qlt 0); lia).
  split; intros Hh.
  - rewrite (percentage_exact _ 0); [done|done|lia|]. rewrite Hh. simpl Z.of_N.
    change (inject_Z 0) with 0%Q. field. lra.
  - rewrite (percentage_exact _ 1); [done|done|lia|]. rewrite Hh.
    change (inject_Z 1) with 1%Q. field. lra.
Qed.

Lemma hit_rate_ends_witness :
  hitRate (getCacheStats (mkServer ∅ (mkStats 0 7 7))) = "0.00%"%string
  ∧ hitRate (getCacheStats (mkServer ∅ (mkStats 7 0 7))) = "100.00%"%string.
Proof.
  split.
  - apply (hit_rate_at_its_ends (mkServer ∅ (mkStats 0 7 7))); reflexivity.
  - apply (hit_rate_at_its_ends (mkServer ∅ (mkStats 7 0 7))); reflexivity.
Defined.

(** ** File sizes in megabytes *)

(** [(stats.size / (1024 * 1024)).toFixed(2)]: the [originalSizeMB] and
    [compressedSizeMB] of [/api/compression-status], and the figure logged
    when the server starts. *)
Definition sizeMB (size : N) : string :=
  Number.toFixed2
    (Number.div (Number.ofN size) (Number.mul (Number.Fin 1024) (Number.Fin 1024))).

(** X13. The megabyte figure is exact.  For a size below [2^53] bytes the
    division by [1024 * 1024] loses nothing, so the string is the size in
    units of [2^20] bytes rounded to the nearest hundredth, a tie rounded
    up: the digits of [floor ((100 * size + 2^19) / 2^20)] hundredths. *)
Theorem sizeMB_is_exactly_rounded (size : N) :
  (size < 2 ^ 53)%N →
  sizeMB size = Number.renderHundredths ((100 * Z.of_N size + 524288) / 1048576).
Proof.
  intros Hsize. unfold sizeMB, Number.ofN. simpl Number.mul.
  set (M := Number.round64 (1024 * 1024)).
  assert (M == 1048576)%Q as HM by (apply Qeq_bool_iff; vm_compute; reflexivity).
  unfold Number.div.
  assert (Qeq_bool M 0 = false) as -> by (vm_compute; reflexivity).
  set (n := Z.of_N size).
  assert (0 <= n < 2 ^ 53)%Z as Hn by (unfold n; lia).
  assert ((2 ^ (-20)) == (1 # 1048576))%Q as H20 by reflexivity.
  assert (inject_Z n / M == inject_Z n * 2 ^ (-20))%Q as Hq.
  { rewrite HM, H20. field. }
  pose proof (NumberExact.round64_exact _ n (-20) Hn Hq) as Hy.
  set (y := Number.round64 (inject_Z n / M)) in *.
  assert (0 <= inject_Z n)%Q as Hn0 by (rewrite <- (Zle_Qle 0); lia).
  assert (y == inject_Z n * (1 # 1048576))%Q as Hy' by (rewrite Hy, Hq, H20; reflexivity).
  assert (0 <= y)%Q as Hy0 by (rewrite Hy'; lra).
  unfold Number.toFixed2, Number.isNegative.
  apply Qle_bool_iff in Hy0. rewrite Hy0. simpl negb. cbv iota.
  unfold Number.hundredths.
  assert (y * 100 + (1 # 2) == (2 * (100 * n + 524288)) # (2 * 1048576))%Q as ->.
  { rewrite Hy'. unfold Qeq, inject_Z. simpl. lia. }
  unfold Qfloor. f_equal.
  change (Z.pos (2 * 1048576)) with (2 * 1048576)%Z.
  by rewrite Z.div_mul_cancel_l by lia.
Qed.

Lemma sizeMB_witness :
  sizeMB 5242880 = "5.00"%string ∧ sizeMB 1572864 = "1.50"%string ∧ sizeMB 5243 = "0.01"%string.
Proof.
  split_and!.
  - rewrite (sizeMB_is_exactly_rounded 5242880); reflexivity.
  - rewrite (sizeMB_is_exactly_rounded 1572864); reflexivity.
  - rewrite (sizeMB_is_exactly_rounded 5243); reflexivity.
Defined.

(** ** The status route *)

(** [app.get('/api/cache/status', ...)]: the report of [getCacheStats]
    with [cacheEntries = Array.from(cache.keys())].  The keys are listed in
    the order of the map's traversal; the properties below hold in any
    order. *)
Definition apiCacheStatus (s : Server) : Report * list string :=
  let stats := getCacheStats s in
  let cacheEntries := (map_to_list (cache s)).*1 in
  (stats, cacheEntries).

(** X14. The status route lists every key of the table once, as many keys
    as the [cacheSize] it reports, and it lists the keys of expired entries
    too: a key can be in the list while every lookup of it returns
    [null]. *)
Theorem status_lists_every_key_once (s : Server) :
  let (report, cacheEntries) := apiCacheStatus s in
  length cacheEntries = cacheSize report
  ∧ NoDup cacheEntries
  ∧ (∀ key, key ∈ cacheEntries ↔ is_Some (cache s !! key))
  ∧ (∀ key item now,
       cache s !! key = Some item → CACHE_TTL <= now - timestamp item →
       key ∈ cacheEntries ∧ getCachedData key now (cache s) = None).
Proof.
  unfold apiCacheStatus, getCacheStats; simpl.
  assert (∀ key, key ∈ (map_to_list (cache s)).*1 ↔ is_Some (cache s !! key)) as Hin.
  { intros key. rewrite list_elem_of_fmap. split.
    - intros [[k item] [-> Hel]]. apply elem_of_map_to_list in Hel. by exists item.
    - intros [item Hc]. exists (key, item). split; [done|]. by apply elem_of_map_to_list. }
  split_and!.
  - by rewrite length_fmap, length_map_to_list.
  - apply NoDup_fst_map_to_list.
  - apply Hin.
  - intros key item now Hc Hage. split.
    + apply Hin. by exists item.
    + apply getCachedData_None. right. by exists item.
Qed.

Lemma status_witness :
  let s := store "k" "v" 0 initial in
  "k"%string ∈ snd (apiCacheStatus s) ∧ getCachedData "k" 1800000 (cache s) = None.
Proof.
  intros s. pose proof (status_lists_every_key_once s) as H.
  destruct (apiCacheStatus s) as [report cacheEntries].
  destruct H as (_ & _ & _ & Hexpired).
  apply (Hexpired "k"%string (mkItem "v" 0) 1800000); [reflexivity | discriminate].
Defined.

(** ** The headers of the static files *)

(** [String.prototype.endsWith]: the search string is not longer than the
    string, and the string's last characters are the search string. *)
Definition endsWith (s suffix : string) : bool :=
  (String.length suffix <=? String.length s)%nat
  && String.eqb
       (substring (String.length s - String.length suffix) (String.length suffix) s)
       suffix.

Definition htmlHeaders : list (string * string) :=
  [ ("Cache-Control", "no-cache, no-store, must-revalidate");
    ("Pragma", "no-cache"); ("Expires", "0") ]%string.

Definition assetHeaders : list (string * string) :=
  [ ("Cache-Control", "public, max-age=86400"); ("Vary", "Accept-Encoding") ]%string.

Definition jsonHeaders : list (string * string) :=
  [ ("Cache-Control", "public, max-age=3600"); ("Vary", "Accept-Encoding") ]%string.

(** The [setHeaders] option of [express.static('public', ...)]: the
    headers it sets for the file at [path]. *)
Definition setHeaders (path : string) : list (string * string) :=
  if endsWith path ".html" then htmlHeaders
  else if endsWith path ".css" || endsWith path ".js" then assetHeaders
  else if endsWith path ".json" then jsonHeaders
  else [].

Lemma length_append (a b : string) :
  String.length (a ++ b) = (String.length a + String.length b)%nat.
Proof.
  induction a as [|c a IH]; [done|].
  change (S (String.length (a ++ b)) = S (String.length a + String.length b)).
  by rewrite IH.
Qed.

Lemma substring_all (s : string) : substring 0 (String.length s) s = s.
Proof. induction s as [|c s IH]; simpl; [done|]. by rewrite IH. Qed.

Lemma substring_append (pre s : string) (m : nat) :
  substring (String.length pre) m (pre ++ s) = substring 0 m s.
Proof.
  induction pre as [|c pre IH]; [done|].
  change (substring (S (String.length pre)) m (String c (pre ++ s)) = substring 0 m s).
  simpl. apply IH.
Qed.

Lemma substring_split (s : string) (n : nat) :
  (n ≤ String.length s)%nat →
  s = (substring 0 n s ++ substring n (String.length s - n) s)%string.
Proof.
  revert n. induction s as [|c s IH]; intros n Hn.
  - simpl in Hn. by replace n with 0%nat by lia.
  - destruct n as [|n].
    + simpl. by rewrite substring_all.
    + simpl in Hn. simpl substring.
      change (String c s = String c (substring 0 n s ++ substring n (String.length s - n) s)).
      by rewrite <- IH by lia.
Qed.

Lemma endsWith_spec (s suffix : string) :
  endsWith s suffix = true ↔ ∃ pre, s = (pre ++ suffix)%string.
Proof.
  unfold endsWith. rewrite andb_true_iff, Nat.leb_le, String.eqb_eq. split.
  - intros [Hlen Hsub]. exists (substring 0 (String.length s - String.length suffix) s).
    pose proof (substring_split s (String.length s - String.length suffix)) as Hs.
    replace (String.length s - (String.length s - String.length suffix))%nat
      with (String.length suffix) in Hs by lia.
    rewrite Hsub in Hs. apply Hs. lia.
  - intros [pre ->]. rewrite length_append. split; [lia|].
    replace (String.length pre + String.length suffix - String.length suffix)%nat
      with (String.length pre) by lia.
    by rewrite substring_append, substring_all.
Qed.

(** Of two endings of one string the shorter is an ending of the longer. *)
Lemma endsWith_both (s a b : string) :
  endsWith s a = true → endsWith s b = true →
  (String.length a ≤ String.length b)%nat → endsWith b a = true.
Proof.
  rewrite !endsWith_spec. intros [p1 ->] [p2 Heq] Hlen. revert p2 Heq.
  induction p1 as [|c p1 IH]; intros p2 Heq.
  - change (a = (p2 ++ b)%string) in Heq.
    assert (String.length a = String.length (p2 ++ b)) as Hl by (by rewrite <- Heq).
    rewrite length_append in Hl. destruct p2 as [|c2 p2]; [|simpl in Hl; lia].
    exists ""%string. by symmetry.
  - destruct p2 as [|c2 p2].
    + exists (String c p1). by symmetry.
    + change (String c (p1 ++ a) = String c2 (p2 ++ b)) in Heq.
      injection Heq as _ Heq. by apply (IH p2).
Qed.

(** X15. The rules for the static files do not overlap: no path ends in
    two of [.html], [.css], [.js] and [.json], so each rule applies
    exactly when its own test holds and the order of the branches decides
    nothing.  In particular a [.json] file is never given the one-day
    lifetime of the [.js] rule, and an [.html] file is never given a
    public lifetime. *)
Theorem static_rules_do_not_overlap (path : string) :
  (endsWith path ".html" = true → setHeaders path = htmlHeaders)
  ∧ (endsWith path ".css" = true ∨ endsWith path ".js" = true →
       setHeaders path = assetHeaders)
  ∧ (endsWith path ".json" = true → setHeaders path = jsonHeaders)
  ∧ (endsWith path ".html" = false → endsWith path ".css" = false →
       endsWith path ".js" = false → endsWith path ".json" = false →
       setHeaders path = []).
Proof.
  assert (∀ a b, endsWith path a = true → endsWith path b = true →
            (String.length a ≤ String.length b)%nat → endsWith b a = false → False) as Hex.
  { intros a b Ha Hb Hlen Hno. rewrite (endsWith_both path a b) in Hno; done. }
  assert (∀ a b, endsWith path a = true → endsWith path b = true →
            (String.length a <=? String.length b)%nat = true →
            endsWith b a = false → False) as Hex'.
  { intros a b Ha Hb Hlen. apply Nat.leb_le in Hlen. by apply Hex. }
  unfold setHeaders. split_and!.
  - by intros ->.
  - intros Hasset.
    destruct (endsWith path ".html") eqn:Hhtml.
    { exfalso. destruct Hasset as [H|H].
      - by apply (Hex' ".css" ".html")%string.
      - by apply (Hex' ".js" ".html")%string. }
    by destruct Hasset as [-> | ->]; rewrite ?orb_true_r.
  - intros Hjson.
    destruct (endsWith path ".html") eqn:Hhtml.
    { exfalso. by apply (Hex' ".html" ".json")%string. }
    destruct (endsWith path ".css") eqn:Hcss.
    { exfalso. by apply (Hex' ".css" ".json")%string. }
    destruct (endsWith path ".js") eqn:Hjs.
    { exfalso. by apply (Hex' ".js" ".json")%string. }
    simpl. by rewrite Hjson.
  - by intros -> -> -> ->.
Qed.

Lemma static_rules_witness :
  setHeaders "/manifest.json" = jsonHeaders
  ∧ setHeaders "/sw.js" = assetHeaders
  ∧ setHeaders "/index.html" = htmlHeaders
  ∧ setHeaders "/logo.png" = [].
Proof.
  destruct (static_rules_do_not_overlap "/manifest.json") as (_ & _ & Hjson & _).
  destruct (static_rules_do_not_overlap "/sw.js") as (_ & Hasset & _ & _).
  destruct (static_rules_do_not_overlap "/index.html") as (Hhtml & _ & _ & _).
  destruct (static_rules_do_not_overlap "/logo.png") as (_ & _ & _ & Hnone).
  split_and!.
  - apply Hjson. reflexivity.
  - apply Hasset. right. reflexivity.
  - apply Hhtml. reflexivity.
  - apply Hnone; reflexivity.
Defined.

(** ** The compression report *)

(** The two further operations on numbers that [/api/compression-status]
    uses: subtraction and [toFixed(1)], in the model of [Number]. *)
Module NumberMore.
Import Number.
Local Open Scope Q_scope.

(** [x - y] *)
Definition sub (x y : number) : number :=
  match x, y with
  | Fin a, Fin b => Fin (round64 (a - b))
  | Fin _, Inf s => Inf (negb s)
  | Inf s, Fin _ => Inf s
  | Inf s, Inf s' => if Bool.eqb s s' then NaN else Inf s
  | _, _ => NaN
  end.

(** [Number.prototype.toFixed(1)] *)
Definition tenths (x : Q) : Z := Qfloor (x * 10 + (1 # 2)).

Definition renderTenths (n : Z) : string :=
  (decimal (n / 10) ++ "." ++ String (digit (n mod 10)) "")%string.

Definition toFixed1 (x : number) : string :=
  match x with
  | Fin q =>
      if isNegative q then ("-" ++ renderTenths (tenths (- q)))%string
      else renderTenths (tenths q)
  | Inf false => "Infinity"
  | Inf true => "-Infinity"
  | NaN => "NaN"
  end.

End NumberMore.

(** [((1 - compressedSize / originalSize) * 100)], before [toFixed(1)]. *)
Definition savedPercent (originalSize compressedSize : N) : Number.number :=
  Number.mul
    (NumberMore.sub (Number.Fin 1)
       (Number.div (Number.ofN compressedSize) (Number.ofN originalSize)))
    (Number.Fin 100).

(** The [compressionRatio] of the report. *)
Definition compressionRatio (originalSize compressedSize : N) : string :=
  NumberMore.toFixed1 (savedPercent originalSize compressedSize).

(** What [res.json] is given by [/api/compression-status], the timestamp
    left out: [originalSize] is [fs.statSync(dataPath).size] and
    [compressedSize] the length of [zlib.gzipSync(data, { level: 6 })]. *)
Record CompressionReport := mkCompression {
  originalSize : N;
  originalSizeMB : string;
  compressedSize : N;
  compressedSizeMB : string;
  ratio : string;
  compressionEnabled : bool
}.

Definition compressionStatus (original compressed : N) : CompressionReport :=
  {| originalSize := original;
     originalSizeMB := sizeMB original;
     compressedSize := compressed;
     compressedSizeMB := sizeMB compressed;
     ratio := compressionRatio original compressed;
     compressionEnabled := true |}.

(** The subtraction against the machine's binary64 arithmetic, on a
    sample of sizes. *)
Module NumberMoreCheck.

Definition machine (o c : Z) : Number.number :=
  NumberCheck.ofFloat
    (PrimFloat.mul
       (PrimFloat.sub (PrimFloat.of_uint63 1)
          (PrimFloat.div (PrimFloat.of_uint63 (Uint63.of_Z c))
                         (PrimFloat.of_uint63 (Uint63.of_Z o))))
       (PrimFloat.of_uint63 100)).

Definition agree (p : Z * Z) : bool :=
  NumberCheck.same (machine (fst p) (snd p)) (savedPercent (Z.to_N (fst p)) (Z.to_N (snd p))).

Definition sizes : list (Z * Z) :=
  [ (0, 20); (0, 0); (1, 21); (10, 30); (3, 1); (3, 2); (3, 3); (7, 1);
    (1000, 1); (5242880, 734003); (5242880, 5242879); (123456789, 987654);
    (9007199254740991, 1); (9007199254740991, 9007199254740990); (49, 7) ]
  ++ flat_map (fun o => List.map (fun c => (Z.of_nat o, Z.of_nat c)) (seq 0 30)) (seq 0 30).

Example savedPercent_agrees_with_machine : forallb agree sizes = true.
Proof. vm_compute. reflexivity. Qed.

End NumberMoreCheck.

Module NumberMoreFacts.
Import Number NumberFacts NumberMore.
Local Open Scope Q_scope.

(** Rounding moves a number of either sign by at most [2^-53] of any bound
    of its size, and keeps its sign. *)
Lemma round64_error_within (q a : Q) :
  - a <= q → q <= a →
  - (a * ulp) <= round64 q - q ∧ round64 q - q <= a * ulp
  ∧ (0 <= q → 0 <= round64 q) ∧ (q <= 0 → round64 q <= 0).
Proof.
  intros Hlo Hhi. unfold round64.
  assert (ulp == (1 # 9007199254740992)) as Hu by reflexivity.
  assert ((1 # 2 ^ 53) == (1 # 9007199254740992)) as H53 by reflexivity.
  destruct (Qcompare_spec q 0) as [Heq|Hlt|Hgt].
  - rewrite Heq in *. rewrite Hu. split_and!; lra.
  - assert (0 < - q) as Hpos by lra.
    destruct (roundPos_error (- q) Hpos) as [H1 H2].
    rewrite H53 in H1, H2. rewrite Hu.
    set (y := roundPos (- q)) in *. clearbody y. split_and!; lra.
  - destruct (roundPos_error q Hgt) as [H1 H2].
    rewrite H53 in H1, H2. rewrite Hu.
    set (y := roundPos q) in *. clearbody y. split_and!; lra.
Qed.

Lemma tenths_near (x : Q) :
  - (1 # 2) < inject_Z (tenths x) - x * 10 ∧ inject_Z (tenths x) - x * 10 <= 1 # 2.
Proof.
  unfold tenths. destruct (floor_bounds (x * 10 + (1 # 2))) as [Hlo Hhi]. lra.
Qed.

Lemma tenths_nonneg (x : Q) : 0 <= x → (0 <= tenths x)%Z.
Proof.
  intros Hx. destruct (tenths_near x) as [Hlo _].
  assert (inject_Z (-1) < inject_Z (tenths x)) as H.
  { change (inject_Z (-1)) with (-1). lra. }
  rewrite <- Zlt_Qlt in H. lia.
Qed.

(** The number printed for [(1 - c / o) * 100], in signed tenths. *)
Lemma saved_error (c o : Q) :
  0 <= c → 0 < o →
  let y := round64 (round64 (1 - round64 (c / o)) * 100) in
  let bound := (1 + c / o) * (1 # 10 ^ 13) in
  - bound <= y - 100 * (1 - c / o) ∧ y - 100 * (1 - c / o) <= bound.
Proof.
  intros Hc Ho y bound. unfold y, bound. clear y bound.
  assert (0 <= c / o) as Hr by (apply Qle_shift_div_l; lra).
  set (r := c / o) in *.
  destruct (round64_error r Hr) as (Hy1 & Hlo1 & Hhi1).
  set (y1 := round64 r) in *.
  assert (ulp == (1 # 9007199254740992)) as Hu by reflexivity.
  rewrite Hu in Hlo1, Hhi1.
  destruct (round64_error_within (1 - y1) (1 + y1)) as (Hlo2 & Hhi2 & _); [lra..|].
  set (y2 := round64 (1 - y1)) in *.
  rewrite Hu in Hlo2, Hhi2.
  destruct (round64_error_within (y2 * 100) (101 * (1 + y1))) as (Hlo3 & Hhi3 & _);
    [lra..|].
  set (y3 := round64 (y2 * 100)) in *.
  rewrite Hu in Hlo3, Hhi3.
  assert ((1 # 10 ^ 13) == (1 # 10000000000000)) as -> by reflexivity.
  clearbody y3 y2 y1 r. split; lra.
Qed.

End NumberMoreFacts.

(** The saving, exactly: [100 * (1 - compressedSize / originalSize)]. *)
Definition exactSaved (original compressed : N) : Q :=
  (100 * (1 - inject_Z (Z.of_N compressed) / inject_Z (Z.of_N original)))%Q.

(** X16. For a data file that is not empty the [compressionRatio] of the
    report is a number with one decimal, with a minus sign when the
    compressed size exceeds the original, within a twentieth (and the
    rounding of the three floating-point operations) of
    [100 * (1 - compressedSize / originalSize)]. *)
Theorem compression_ratio_is_accurate (original compressed : N) :
  (0 < original)%N →
  ∃ (negative : bool) (n : Z),
    (0 <= n)%Z
    ∧ ratio (compressionStatus original compressed)
      = ((if negative then "-" else "") ++ NumberMore.renderTenths n)%string
    ∧ (Qabs ((if negative then - inject_Z n else inject_Z n) / 10
             - exactSaved original compressed)
       <= (1 # 20)
          + (1 + inject_Z (Z.of_N compressed) / inject_Z (Z.of_N original))
            * (1 # 10 ^ 13))%Q.
Proof.
  intros Ho. unfold compressionStatus, ratio, compressionRatio, savedPercent, exactSaved.
  unfold Number.ofN, Number.div.
  set (c := inject_Z (Z.of_N compressed)). set (o := inject_Z (Z.of_N original)).
  assert (0 <= c)%Q as Hc by (unfold c; rewrite <- (Zle_Qle 0); lia).
  assert (0 < o)%Q as Ho' by (unfold o; rewrite <- (Zlt_Qlt 0); lia).
  assert (Qeq_bool o 0 = false) as ->.
  { apply not_true_iff_false. intros Heq. apply Qeq_bool_iff in Heq. lra. }
  simpl NumberMore.sub. simpl Number.mul.
  destruct (NumberMoreFacts.saved_error c o Hc Ho') as [Hlo Hhi].
  set (y := Number.round64 (Number.round64 (1 - Number.round64 (c / o)) * 100)) in *.
  assert ((1 # 10 ^ 13) == (1 # 10000000000000))%Q as H13 by reflexivity.
  rewrite H13 in *.
  unfold NumberMore.toFixed1, Number.isNegative.
  set (r := (c / o)%Q) in *.
  destruct (Qle_bool 0 y) eqn:Hsign; simpl negb; cbv iota.
  - apply Qle_bool_iff in Hsign.
    exists false, (NumberMore.tenths y). split_and!.
    + by apply NumberMoreFacts.tenths_nonneg.
    + done.
    + destruct (NumberMoreFacts.tenths_near y) as [Hn1 Hn2].
      set (n := inject_Z (NumberMore.tenths y)) in *.
      assert (n / 10 == n * (1 # 10))%Q as -> by (field; lra).
      rewrite H13. clearbody n y r. apply Qabs_Qle_condition. split; lra.
  - assert (y < 0)%Q as Hneg.
    { apply Qnot_le_lt. intros Hle. apply Qle_bool_iff in Hle. congruence. }
    exists true, (NumberMore.tenths (- y)). split_and!.
    + apply NumberMoreFacts.tenths_nonneg. lra.
    + done.
    + destruct (NumberMoreFacts.tenths_near (- y)) as [Hn1 Hn2].
      set (n := inject_Z (NumberMore.tenths (- y))) in *.
      assert (- n / 10 == - n * (1 # 10))%Q as -> by (field; lra).
      rewrite H13. clearbody n y r. apply Qabs_Qle_condition. split; lra.
Qed.

Lemma compression_ratio_witness :
  ratio (compressionStatus 5242880 734003) = "86.0"%string
  ∧ ratio (compressionStatus 10 30) = "-200.0"%string
  ∧ ∃ (negative : bool) (n : Z),
      (0 <= n)%Z
      ∧ ratio (compressionStatus 10 30)
        = ((if negative then "-" else "") ++ NumberMore.renderTenths n)%string
      ∧ (Qabs ((if negative then - inject_Z n else inject_Z n) / 10 - exactSaved 10 30)
         <= (1 # 20) + (1 + inject_Z 30 / inject_Z 10) * (1 # 10 ^ 13))%Q.
Proof.
  split_and!.
  - reflexivity.
  - reflexivity.
  - apply (compression_ratio_is_accurate 10 30). reflexivity.
Defined.

(** X17. The report of an empty data file.  With [originalSize = 0] the
    quotient is a division by zero: the [compressionRatio] reads
    ["-Infinity"] for every compressed size above zero (and gzip output is
    never empty), ["NaN"] for zero; the size in megabytes reads ["0.00"]. *)
Theorem compression_report_of_an_empty_file (compressed : N) :
  ratio (compressionStatus 0 compressed)
  = (if (compressed =? 0)%N then "NaN" else "-Infinity")%string
  ∧ originalSizeMB (compressionStatus 0 compressed) = "0.00"%string.
Proof.
  split; [|reflexivity].
  destruct compressed as [|p]; reflexivity.
Qed.

(** ** An unchanged data file *)

(** The operations of a period in which the data file holds [text]
    whenever it can be read, and nothing but the data route writes under
    [cacheKey]. *)
Definition fileHolds (text : string) (op : Op) : bool :=
  match op with
  | OpRequest _ _ (Contents t) _ => String.eqb t text
  | OpSet k _ _ => negb (String.eqb k cacheKey)
  | _ => true
  end.

Definition cachesOnly (text : string) (c : Cache) : Prop :=
  ∀ item, c !! cacheKey = Some item → data item = text.

Lemma cachesOnly_step text s op :
  fileHolds text op = true → cachesOnly text (cache s) → cachesOnly text (cache (step s op)).
Proof.
  intros Hop Hinv item. destruct op as [k t|k d t|t| | |referer t file t']; unfold step.
  - apply Hinv.
  - simpl in Hop. apply negb_true_iff, String.eqb_neq in Hop.
    rewrite store_lookup_ne by done. apply Hinv.
  - unfold sweep, cache at 1. rewrite clearExpiredCache_lookup.
    destruct (cache s !! cacheKey) as [item'|] eqn:Hc; [|done].
    destruct (stale t item'); [done|]. intros Heq. injection Heq as <-. by apply Hinv.
  - done.
  - apply Hinv.
  - unfold apiData. destruct (blocked referer); [apply Hinv|].
    unfold checkCache. destruct (truthy _); [apply Hinv|].
    destruct file as [text'|]; [|apply Hinv].
    simpl in Hop. apply String.eqb_eq in Hop as ->.
    unfold store, setCachedData, cache at 1, snd. rewrite lookup_insert_eq.
    intros Heq. by injection Heq as <-.
Qed.

(** X18. While the data file does not change, what the data route passes
    to [res.send] is the text of the file, from the cache or not: after
    any run of requests, sweeps, clears and reports in which every
    readable file held [text], a request that is let through and reads
    [text] sends [text], whether it hits or misses; and a request whose
    read would throw sends [text] too, if it sends a body at all.  The
    statement is about the argument of [res.send]; the headers are not
    part of it. *)
Theorem unchanged_file_is_what_every_request_sends
    (text : string) (ops : list Op) (referer : option string) (now now' : Z) :
  forallb (fileHolds text) ops = true →
  (blocked referer = false →
     fst (apiData referer now (Contents text) now' (run ops initial)) = Sent text)
  ∧ (∀ body,
       fst (apiData referer now ReadError now' (run ops initial)) = Sent body →
       body = text).
Proof.
  intros Hops.
  assert (cachesOnly text (cache (run ops initial))) as Hinv.
  { assert (cachesOnly text (cache initial)) as H0 by (by intros item).
    revert H0 Hops. generalize initial.
    induction ops as [|op ops IH]; intros s H0 Hops; [done|].
    simpl in Hops. apply andb_true_iff in Hops as [Hop Hops].
    simpl. apply IH; [|done]. by apply cachesOnly_step. }
  set (s := run ops initial) in *.
  assert (∀ d, truthy (getCachedData cacheKey now (cache s)) = Some d → d = text) as Hhit.
  { intros d Ht. apply truthy_Some in Ht as [Hd _].
    apply getCachedData_Some in Hd as (item & Hc & _ & <-). by apply Hinv. }
  split.
  - intros Hb. unfold apiData, checkCache. rewrite Hb.
    destruct (truthy (getCachedData cacheKey now (cache s))) as [d|] eqn:Ht; simpl; [|done].
    by rewrite (Hhit d).
  - intros body. unfold apiData, checkCache. destruct (blocked referer); [done|].
    destruct (truthy (getCachedData cacheKey now (cache s))) as [d|] eqn:Ht; simpl; [|done].
    intros Heq. injection Heq as <-. by apply Hhit.
Qed.

Lemma unchanged_file_witness :
  let ops := [OpRequest None 0 (Contents "rows") 1; OpSweep 50;
              OpRequest None 60 ReadError 60; OpClear;
              OpRequest None 70 (Contents "rows") 71] in
  fst (apiData None 100 (Contents "rows") 100 (run ops initial)) = Sent "rows"
  ∧ fst (apiData None 100 ReadError 100 (run ops initial)) = Sent "rows".
Proof.
  intros ops.
  destruct (unchanged_file_is_what_every_request_sends "rows" ops None 100 100)
    as [Hsame _]; [reflexivity|].
  split; [by apply Hsame | reflexivity].
Defined.

(** ** The example trace, on the code *)

Lemma atMostTheData_run ops s :
  forallb isCallback ops = true →
  atMostTheData (cache s) → atMostTheData (cache (run ops s)).
Proof.
  revert s. induction ops as [|op ops IH]; intros s Hops H0; [done|].
  simpl in Hops. apply andb_true_iff in Hops as [Hop Hops].
  simpl. apply IH; [done|]. by apply atMostTheData_step.
Qed.

(** The report that the trace of the spec is said to end in. *)
Definition claimedReport : Report := mkReport (mkStats 1 1 2) "50.00%" 2.

(** C7, where the code leaves it.  [set("k1","a")], [set("k2","b")],
    [get("k1")], [get("k3")] on the functions of the source, from the empty
    table and zeroed counters, at times 1, 2, 3, 4: the lookups return
    ["a"] and [null] and the table has two entries, but [getCachedData]
    counts nothing, so the report is [hits = 0], [misses = 0],
    [totalRequests = 0], [hitRate = "0%"], not the [1], [1], [2],
    ["50.00%"] of the trace.  On the data route, the only code that counts,
    a miss and a hit give [1], [1], [2], ["50.00%"], with one entry, not
    two. *)
Lemma example_trace_is_not_what_the_code_reports :
  let c := setCachedData "k2" "b" 2 (setCachedData "k1" "a" 1 ∅) in
  let s := mkServer c zeroStats in
  let s2 := snd (apiData None 4 ReadError 4 (snd (apiData None 1 (Contents "a") 2 initial))) in
  getCachedData "k1" 3 c = Some "a"%string
  ∧ getCachedData "k3" 4 c = None
  ∧ getCacheStats s = mkReport (mkStats 0 0 0) "0%" 2
  ∧ getCacheStats s ≠ claimedReport
  ∧ getCacheStats s2 = mkReport (mkStats 1 1 2) "50.00%" 1
  ∧ getCacheStats s2 ≠ claimedReport.
Proof. vm_compute. by split_and!. Qed.

(** C7, as the code has it.  From the empty table and zeroed counters:
    [setCachedData("k1","a")], [setCachedData("k2","b")],
    [getCachedData("k1")] within the window of the first write, and
    [getCachedData("k3")] return ["a"] and [null] and leave two entries,
    with the counters still at zero and [hitRate = "0%"]: the lookup
    function counts nothing.  Hits and misses are counted by the data
    route only, for its one key: a request that misses and reads a
    non-empty file, followed by a request within the window of that load,
    sends the text twice, a miss and then a hit, and the report is
    [hits = 1], [misses = 1], [totalRequests = 2], [hitRate = "50.00%"],
    [cacheSize = 1].  No run of the callbacks of the server ends in the
    report with these counters and [cacheSize = 2]. *)
Theorem example_trace_on_the_code
    (t1 t2 t3 t4 : Z) (text : string) (now now' later later' : Z) (file : FileRead) :
  t3 - t1 < CACHE_TTL →
  text ≠ ""%string →
  later - now' < CACHE_TTL →
  (let c := setCachedData "k2" "b" t2 (setCachedData "k1" "a" t1 ∅) in
   getCachedData "k1" t3 c = Some "a"%string
   ∧ getCachedData "k3" t4 c = None
   ∧ getCacheStats (mkServer c zeroStats) = mkReport (mkStats 0 0 0) "0%" 2)
  ∧ (let (r1, s1) := apiData None now (Contents text) now' initial in
     let (r2, s2) := apiData None later file later' s1 in
     r1 = Sent text
     ∧ cacheStats s1 = mkStats 0 1 1
     ∧ r2 = Sent text
     ∧ getCacheStats s2 = mkReport (mkStats 1 1 2) "50.00%" 1)
  ∧ (∀ ops, forallb isCallback ops = true →
       getCacheStats (run ops initial) ≠ claimedReport).
Proof.
  intros Hage Htext Hlater. split_and!.
  - cbv zeta. split_and!.
    + unfold getCachedData, setCachedData.
      rewrite lookup_insert_ne by done. rewrite lookup_insert_eq.
      unfold fresh; simpl timestamp.
      by destruct (Z.ltb_spec (t3 - t1) CACHE_TTL); [|lia].
    + unfold getCachedData, setCachedData. by rewrite !lookup_insert_ne by done.
    + unfold getCacheStats, setCachedData; simpl.
      rewrite map_size_insert_None by (by rewrite lookup_insert_ne by done).
      by rewrite map_size_insert_None by done.
  - unfold apiData at 1. simpl blocked. cbv iota.
    assert (checkCache cacheKey now initial
            = (None, mkServer ∅ (countMiss zeroStats))) as -> by done.
    simpl truthy. cbv iota beta.
    set (s1 := store cacheKey text now' (mkServer ∅ (countMiss zeroStats))).
    assert (cache s1 !! cacheKey = Some (mkItem text now')) as Hc by apply store_lookup.
    rewrite (apiData_hit None later file later' s1 (mkItem text now')) by done.
    split_and!; [done..|].
    unfold getCacheStats, s1, store, setCachedData; simpl.
    by rewrite map_size_insert_None by done.
  - intros ops Hops Heq.
    pose proof (atMostTheData_run ops initial Hops ltac:(by left)) as Hinv.
    assert (cacheSize (getCacheStats (run ops initial)) = 2%nat) as Hsize
      by (by rewrite Heq).
    unfold getCacheStats in Hsize; simpl in Hsize.
    destruct Hinv as [Hc | [item Hc]]; rewrite Hc in Hsize.
    + by rewrite map_size_empty in Hsize.
    + by rewrite map_size_singleton in Hsize.
Qed.

Lemma example_trace_on_the_code_witness :
  (let c := setCachedData "k2" "b" 20 (setCachedData "k1" "a" 10 ∅) in
   getCachedData "k1" 30 c = Some "a"%string
   ∧ getCachedData "k3" 40 c = None
   ∧ getCacheStats (mkServer c zeroStats) = mkReport (mkStats 0 0 0) "0%" 2)
  ∧ (let (r1, s1) := apiData None 10 (Contents "rows") 11 initial in
     let (r2, s2) := apiData None 30 ReadError 30 s1 in
     r1 = Sent "rows"
     ∧ cacheStats s1 = mkStats 0 1 1
     ∧ r2 = Sent "rows"
     ∧ getCacheStats s2 = mkReport (mkStats 1 1 2) "50.00%" 1)
  ∧ (∀ ops, forallb isCallback ops = true →
       getCacheStats (run ops initial) ≠ claimedReport).
Proof.
  apply (example_trace_on_the_code 10 20 30 40 "rows" 10 11 30 30 ReadError).
  - reflexivity.
  - discriminate.
  - reflexivity.
Defined.
